(** * crosschain_typescript.c: the cross-chain transfer type script

    A shallow embedding of [src/c/crosschain_typescript.c] and the
    verification of its specification.

    The script talks to the CKB virtual machine through system calls and to
    three libraries (Molecule readers, blake2b, secp256k1).  The system
    calls are modelled by a [Host]: for every call the status the machine
    answers with and the bytes it stores.  The libraries, whose code is not
    part of the script, are the fields of the class [Externals]. *)

From Stdlib Require Import ZArith List Lia Bool.
From Stdlib Require Import Init.Byte Strings.Byte.
Import ListNotations.
Open Scope Z_scope.

(** ** Constants of the script (lines 9-46) *)

Definition BLAKE2B_BLOCK_SIZE : Z := 32.
Definition SCRIPT_SIZE : Z := 32768.

Definition ERROR_ARGUMENTS_LEN : Z := -1.
Definition ERROR_ENCODING : Z := -2.
Definition ERROR_SYSCALL : Z := -3.
Definition ERROR_SCRIPT_TOO_LONG : Z := -21.
Definition ERROR_OVERFLOWING : Z := -51.
Definition ERROR_1ST_CELL_TYPE_HASH_NOT_MATCH : Z := -52.
Definition ERROR_LOAD_INPUT : Z := -53.

Definition BLAKE160_SIZE : nat := 20.
Definition PUBKEY_SIZE : Z := 33.
Definition RECID_INDEX : nat := 64.
Definition MAX_WITNESS_SIZE : Z := 32768.
Definition SIGNATURE_SIZE : Z := 65.

Definition ERROR_GROUP_OUTPUT_INVALID : Z := -100.
Definition ERROR_GROUP_INPUT_INVALID : Z := -101.
Definition ERROR_CAPACITY_INVALID : Z := -102.
Definition ERROR_VALIDATOR_SIGNATURE_INVALID : Z := -103.

(** Modelled from the spec: [ckb_syscalls.h] is not part of the sources.
    The process boundary of the spec has 0 for "accepted", and the script
    returns [CKB_SUCCESS] where it accepts. *)
Definition CKB_SUCCESS : Z := 0.

(** Modelled from the spec: [ckb_syscalls.h] is not part of the sources.
    The host ends an enumeration by an explicit "index out of range"
    signal, distinct from success and from the other error signals; the
    CKB headers number it 1. *)
Definition CKB_INDEX_OUT_OF_BOUND : Z := 1.

(** The three sources the script queries. *)
Inductive source : Type :=
| CKB_SOURCE_GROUP_INPUT
| CKB_SOURCE_GROUP_OUTPUT
| CKB_SOURCE_INPUT.

(** ** Bytes and buffers *)

Definition bytes := list byte.

Definition byte_of_Z (z : Z) : byte :=
  match Byte.of_N (Z.to_N (z mod 256)) with
  | Some b => b
  | None => x00
  end.

Definition Z_of_byte (b : byte) : Z := Z.of_N (Byte.to_N b).

(** The value of a little-endian byte string. *)
Definition le_decode (l : bytes) : Z :=
  fold_right (fun b acc => Z_of_byte b + 256 * acc) 0 l.

(** The eight bytes of a [uint64_t] in memory (the machine is little
    endian). *)
Definition le64 (n : Z) : bytes :=
  map (fun k => byte_of_Z (Z.shiftr n (8 * Z.of_nat k))) (seq 0 8).

(** A [uint64_t] read from eight bytes of the host. *)
Definition u64 (z : Z) : Z := z mod 2 ^ 64.

(** [mol_seg_t]: a pointer and a size.  Every segment of the script points
    into the buffer it was decoded from, so [ptr] is the offset there. *)
Record mol_seg_t : Type := { ptr : nat; size : Z }.

(** [memcpy(dst, buf + off, n)]: the [n] bytes copied. *)
Definition memcpy (buf : bytes) (off : nat) (n : Z) : bytes :=
  firstn (Z.to_nat n) (skipn off buf).

Fixpoint memset_from (buf : bytes) (i off n : nat) (c : byte) : bytes :=
  match buf with
  | [] => []
  | b :: rest =>
      (if (off <=? i)%nat && (i <? off + n)%nat then c else b)
        :: memset_from rest (S i) off n c
  end.

(** [memset(buf + off, c, n)], in place: the buffer afterwards. *)
Definition memset (buf : bytes) (off : nat) (c : byte) (n : Z) : bytes :=
  memset_from buf 0 off (Z.to_nat n) c.

Fixpoint bytes_eqb (a b : bytes) : bool :=
  match a, b with
  | [], [] => true
  | x :: a', y :: b' => Byte.eqb x y && bytes_eqb a' b'
  | _, _ => false
  end.

(** [memcmp(a + off, b, n) == 0]. *)
Definition memcmp_eq (a : bytes) (off : nat) (b : bytes) (n : nat) : bool :=
  bytes_eqb (firstn n (skipn off a)) (firstn n b).

(** ** The host

    What the virtual machine answers.  A list holds the answers for the
    indices 0, 1, ...; past its end the machine answers
    [CKB_INDEX_OUT_OF_BOUND].  An answer is a status and, for a load, the
    whole item: a load reports the item's full length in [len], and the
    script offers its whole buffer and rejects every item longer than
    that before reading it.  The one exception is [get_cell_num], whose
    buffer has one byte: there the room offered is part of the model (see
    [ckb_load_cell_data]). *)

Record Host : Type := {
  (** [ckb_load_script] *)
  script_of : Z * bytes;
  (** [ckb_load_cell_data], per source and index: the status and the data
      of the cell *)
  cell_data : source -> list (Z * bytes);
  (** [ckb_load_cell_by_field] with [CKB_CELL_FIELD_CAPACITY] *)
  cell_capacity : source -> list (Z * Z);
  (** [ckb_load_witness] *)
  witnesses : source -> list (Z * bytes);
  (** [ckb_load_tx_hash] *)
  tx_hash_of : Z * bytes;
  (** [calculate_inputs_len] of [common.h]: the number of inputs of the
      transaction *)
  inputs_len : nat;
  (** [ckb_secp256k1_custom_verify_only_initialize] of
      [secp256k1_helper.h]: its return value (it loads the curve's tables
      from a cell of the transaction) *)
  secp256k1_initialize : Z
}.

Definition ckb_load_script (h : Host) : Z * bytes := script_of h.

(** [ckb_load_cell_data(buffer, &len, 0, index, src)] into a buffer of
    [room] bytes.  [len] goes in as the number of bytes the host may store
    and comes back as the full length of the data, which is how the script
    uses it in every load (lines 74-83, 162-170): on success the host
    stores the first [len] bytes of the data, all of it when it is
    shorter.  The result is the status and the new [len]; [None] when the
    host stored more than [room] bytes, that is past the end of the
    buffer, after which the source does not say what the program does. *)
Definition ckb_load_cell_data (h : Host) (room len : Z) (index : nat)
  (src : source) : option (Z * Z) :=
  let '(ret, data) :=
    nth index (cell_data h src) (CKB_INDEX_OUT_OF_BOUND, []) in
  if ret =? CKB_SUCCESS then
    if Z.min len (Z.of_nat (length data)) >? room then None
    else Some (ret, Z.of_nat (length data))
  else Some (ret, len).

Definition ckb_load_cell_by_field (h : Host) (index : nat) (src : source)
  : Z * Z :=
  nth index (cell_capacity h src) (CKB_INDEX_OUT_OF_BOUND, 0).

Definition ckb_load_witness (h : Host) (index : nat) (src : source)
  : Z * bytes :=
  nth index (witnesses h src) (CKB_INDEX_OUT_OF_BOUND, []).

Definition ckb_load_tx_hash (h : Host) : Z * bytes := tx_hash_of h.

(** Modelled from the spec: [calculate_inputs_len] is a helper of
    [common.h], which is not part of the sources; it computes the total
    number of inputs of the transaction (not just those of the group). *)
Definition calculate_inputs_len (h : Host) : nat := inputs_len h.

Definition ckb_secp256k1_custom_verify_only_initialize (h : Host) : Z :=
  secp256k1_initialize h.

(** ** The libraries

    The Molecule readers, the hash and the curve operations, and the error
    codes of [common.h]: their code is outside the script. *)

Class Externals : Type := {
  secp256k1_ecdsa_recoverable_signature : Type;
  secp256k1_pubkey : Type;
  (** blake2b with a 32-byte output, as a function of the whole input *)
  blake2b : bytes -> bytes;
  (** [MolReader_Script_verify(seg, false) == MOL_OK] *)
  MolReader_Script_verify : bytes -> bool;
  MolReader_Script_get_args : bytes -> bytes;
  MolReader_Bytes_raw_bytes : bytes -> bytes;
  (** [extract_witness_lock(witness, len, &seg)]: the return value and the
      segment of the lock field inside the witness *)
  extract_witness_lock : bytes -> Z * mol_seg_t;
  (** the pointer to the 64 signature bytes and the recovery id *)
  secp256k1_ecdsa_recoverable_signature_parse_compact :
    bytes -> Z -> option secp256k1_ecdsa_recoverable_signature;
  secp256k1_ecdsa_recover :
    secp256k1_ecdsa_recoverable_signature -> bytes -> option secp256k1_pubkey;
  (** compressed serialisation: the bytes written, [pubkey_size] of them *)
  secp256k1_ec_pubkey_serialize : secp256k1_pubkey -> option bytes;
  ERROR_WITNESS_SIZE : Z;
  ERROR_SECP_PARSE_SIGNATURE : Z;
  ERROR_SECP_RECOVER_PUBKEY : Z;
  ERROR_SECP_SERIALIZE_PUBKEY : Z
}.

(** Modelled from the spec: [blake2b.h] is not part of the sources.  The
    hash is used as an accumulator: started, fed byte strings in order,
    finalised into the 32-byte digest of all it was fed.  The state is the
    input so far. *)
Definition blake2b_state := bytes.
Definition blake2b_init : blake2b_state := [].
Definition blake2b_update (ctx : blake2b_state) (data : bytes)
  : blake2b_state := ctx ++ data.
Definition blake2b_final `{Externals} (ctx : blake2b_state) : bytes :=
  blake2b ctx.

(** ** [get_cell_num] (lines 55-70)

    [buffer] has one byte and [len] is set to 1 once, before the loop: the
    first query offers one byte, every later query offers [buffer] with
    the length the query before it reported.  The loop carries [i], [len]
    and the log of the statuses the host answered.  There is no exit but
    the out-of-range answer; the host gives it at the end of its list at
    the latest, which bounds the number of rounds.  [None]: a query made
    the host store past [buffer]. *)

Fixpoint get_cell_num_loop (h : Host) (cell_type : source) (fuel : nat)
  (i : nat) (len : Z) (log : list Z) : option (nat * list Z) :=
  match fuel with
  | O => Some (i, log)
  | S fuel' =>
      match ckb_load_cell_data h 1 len i cell_type with
      | None => None
      | Some (ret, len) =>
          if ret =? CKB_INDEX_OUT_OF_BOUND then Some (i, log ++ [ret])
          else get_cell_num_loop h cell_type fuel' (i + 1) len (log ++ [ret])
      end
  end.

Definition get_cell_num_log (h : Host) (cell_type : source)
  : option (nat * list Z) :=
  get_cell_num_loop h cell_type (S (length (cell_data h cell_type))) 0 1 [].

Definition get_cell_num (h : Host) (cell_type : source) : option Z :=
  match get_cell_num_log h cell_type with
  | Some (i, _) => Some (Z.of_nat i)
  | None => None
  end.

(** ** [verify_transfer] (lines 103-323) *)

Section Script.
Context `{Externals}.

(** The two witness loops (lines 219-239 and 248-267) differ in the source
    and in the first index only.  [inl] is an early return of the script,
    [inr] the hash state when the host answers out of range.

    [len] is declared [int] in [verify_transfer], while the host writes the
    length, and the hash reads it, through a [uint64_t] pointer.  What
    that does to the neighbouring stack slots depends on the layout the
    compiler chooses; the model keeps the 64-bit length the host stored,
    which is also the value of [len] for every length below 2^31. *)
Fixpoint hash_witnesses_loop (h : Host) (src : source) (fuel : nat)
  (i : nat) (blake2b_ctx : blake2b_state) : Z + blake2b_state :=
  match fuel with
  | O => inr blake2b_ctx
  | S fuel' =>
      let '(ret, temp) := ckb_load_witness h i src in
      let len := Z.of_nat (length temp) in
      if ret =? CKB_INDEX_OUT_OF_BOUND then inr blake2b_ctx
      else if negb (ret =? CKB_SUCCESS) then inl ERROR_SYSCALL
      else if len >? MAX_WITNESS_SIZE then inl ERROR_WITNESS_SIZE
      else
        let blake2b_ctx := blake2b_update blake2b_ctx (le64 len) in
        let blake2b_ctx := blake2b_update blake2b_ctx temp in
        hash_witnesses_loop h src fuel' (i + 1) blake2b_ctx
  end.

Definition hash_witnesses (h : Host) (src : source) (i : nat)
  (blake2b_ctx : blake2b_state) : Z + blake2b_state :=
  hash_witnesses_loop h src (S (length (witnesses h src))) i blake2b_ctx.

(** Lines 160-269: the signature taken out of witness 0 and the message to
    verify, or the status of an early return. *)
Definition signing_message (h : Host) : Z + (bytes * bytes) :=
  let '(ret, temp) := ckb_load_witness h 0 CKB_SOURCE_GROUP_INPUT in
  let witness_len := Z.of_nat (length temp) in
  if negb (ret =? CKB_SUCCESS) then inl ERROR_SYSCALL
  else if witness_len >? MAX_WITNESS_SIZE then inl ERROR_WITNESS_SIZE
  else
    let '(ret, lock_bytes_seg) := extract_witness_lock temp in
    if negb (ret =? 0) then inl ERROR_ENCODING
    else if negb (size lock_bytes_seg =? SIGNATURE_SIZE)
    then inl ERROR_ARGUMENTS_LEN
    else
      let lock_bytes :=
        memcpy temp (ptr lock_bytes_seg) (size lock_bytes_seg) in
      let '(ret, tx_hash) := ckb_load_tx_hash h in
      let len := Z.of_nat (length tx_hash) in
      if negb (ret =? CKB_SUCCESS) then inl ret
      else if negb (len =? BLAKE2B_BLOCK_SIZE) then inl ERROR_SYSCALL
      else
        let blake2b_ctx := blake2b_init in
        let blake2b_ctx := blake2b_update blake2b_ctx tx_hash in
        let temp :=
          memset temp (ptr lock_bytes_seg) x00 (size lock_bytes_seg) in
        let blake2b_ctx := blake2b_update blake2b_ctx (le64 witness_len) in
        let blake2b_ctx := blake2b_update blake2b_ctx temp in
        match hash_witnesses h CKB_SOURCE_GROUP_INPUT 1 blake2b_ctx with
        | inl e => inl e
        | inr blake2b_ctx =>
            let i := calculate_inputs_len h in
            match hash_witnesses h CKB_SOURCE_INPUT i blake2b_ctx with
            | inl e => inl e
            | inr blake2b_ctx =>
                let message := blake2b_final blake2b_ctx in
                inr (lock_bytes, message)
            end
        end.

(** Lines 276-304: the first 32 bytes of [temp] after the key recovered
    from the signature was serialised and hashed, or the status of an
    early return. *)
Definition recover_pubkey_hash (h : Host) (lock_bytes message : bytes)
  : Z + bytes :=
  let ret := ckb_secp256k1_custom_verify_only_initialize h in
  if negb (ret =? 0) then inl ret
  else
    match secp256k1_ecdsa_recoverable_signature_parse_compact lock_bytes
            (Z_of_byte (nth RECID_INDEX lock_bytes x00)) with
    | None => inl ERROR_SECP_PARSE_SIGNATURE
    | Some signature =>
        match secp256k1_ecdsa_recover signature message with
        | None => inl ERROR_SECP_RECOVER_PUBKEY
        | Some pubkey =>
            match secp256k1_ec_pubkey_serialize pubkey with
            | None => inl ERROR_SECP_SERIALIZE_PUBKEY
            | Some temp =>
                let blake2b_ctx := blake2b_init in
                let blake2b_ctx := blake2b_update blake2b_ctx temp in
                inr (blake2b_final blake2b_ctx)
            end
        end
    end.

(** Lines 309-322: the scan of the validators.  [index] grows by 20 in
    every round, so the rounds are at most the length of the args. *)
Fixpoint match_validators_loop (args temp : bytes) (fuel : nat)
  (index : nat) : Z :=
  match fuel with
  | O => ERROR_VALIDATOR_SIGNATURE_INVALID
  | S fuel' =>
      if (index + BLAKE160_SIZE <=? length args)%nat then
        if memcmp_eq args index temp BLAKE160_SIZE then CKB_SUCCESS
        else match_validators_loop args temp fuel' (index + BLAKE160_SIZE)
      else ERROR_VALIDATOR_SIGNATURE_INVALID
  end.

Definition match_validators (args temp : bytes) : Z :=
  match_validators_loop args temp (S (length args)) 0.

(** The args of the running script (lines 153-154). *)
Definition script_args (script : bytes) : bytes :=
  MolReader_Bytes_raw_bytes (MolReader_Script_get_args script).

Definition verify_transfer (h : Host) : Z :=
  let '(ret, input_capacity) :=
    ckb_load_cell_by_field h 0 CKB_SOURCE_GROUP_INPUT in
  if negb (ret =? CKB_SUCCESS) then ret
  else
    let '(ret, output_capacity) :=
      ckb_load_cell_by_field h 0 CKB_SOURCE_GROUP_OUTPUT in
    if negb (ret =? CKB_SUCCESS) then ret
    else if u64 input_capacity >? u64 output_capacity
    then ERROR_CAPACITY_INVALID
    else
      let '(ret, script) := ckb_load_script h in
      let len := Z.of_nat (length script) in
      if negb (ret =? CKB_SUCCESS) then ERROR_SYSCALL
      else if len >? SCRIPT_SIZE then ERROR_SCRIPT_TOO_LONG
      else if negb (MolReader_Script_verify script) then ERROR_ENCODING
      else
        let args_bytes_seg := script_args script in
        if negb (Z.of_nat (length args_bytes_seg)
                   mod Z.of_nat BLAKE160_SIZE =? 0)
        then ERROR_ARGUMENTS_LEN
        else
          match signing_message h with
          | inl e => e
          | inr (lock_bytes, message) =>
              match recover_pubkey_hash h lock_bytes message with
              | inl e => e
              | inr temp => match_validators args_bytes_seg temp
              end
          end.

(** ** [verify_init] (lines 325-327) *)

Definition verify_init : Z := CKB_SUCCESS.

(** ** [main] (lines 72-101) *)

(** The return value of the script; [None] when counting the cells of a
    group stored past the buffer of [get_cell_num]. *)
Definition main (h : Host) : option Z :=
  let '(ret, script) := ckb_load_script h in
  let len := Z.of_nat (length script) in
  if negb (ret =? CKB_SUCCESS) then Some ERROR_SYSCALL
  else if len >? SCRIPT_SIZE then Some ERROR_SCRIPT_TOO_LONG
  else
    match get_cell_num h CKB_SOURCE_GROUP_INPUT with
    | None => None
    | Some input_group_num =>
        match get_cell_num h CKB_SOURCE_GROUP_OUTPUT with
        | None => None
        | Some output_group_num =>
            if negb (output_group_num =? 1)
            then Some ERROR_GROUP_OUTPUT_INVALID
            else if negb (input_group_num =? 0)
                    && negb (input_group_num =? 1)
            then Some ERROR_GROUP_INPUT_INVALID
            else if input_group_num =? 0 then Some verify_init
            else Some (verify_transfer h)
        end
    end.

End Script.

(** ** Vocabulary of the specification *)

(** The answers of an enumeration up to the out-of-range signal. *)
Fixpoint until_out_of_bound (answers : list (Z * bytes)) : list (Z * bytes) :=
  match answers with
  | [] => []
  | (ret, w) :: rest =>
      if ret =? CKB_INDEX_OUT_OF_BOUND then []
      else (ret, w) :: until_out_of_bound rest
  end.

(** A load the script goes on with: success, and within the 32 KiB cap. *)
Definition loads_within_cap (answer : Z * bytes) : Prop :=
  fst answer = CKB_SUCCESS /\
  Z.of_nat (length (snd answer)) <= MAX_WITNESS_SIZE.

(** A witness as it enters the message: its length as eight little-endian
    bytes, then its bytes. *)
Definition witness_entry (w : bytes) : bytes :=
  le64 (Z.of_nat (length w)) ++ w.

Definition witness_entries (answers : list (Z * bytes)) : bytes :=
  concat (map (fun a => witness_entry (snd a)) answers).

(** A witness with the bytes of its lock field, at offset [off], replaced
    by [lock]. *)
Definition replace_lock (w : bytes) (off : nat) (lock : bytes) : bytes :=
  firstn off w ++ lock ++ skipn (off + length lock) w.

(** Some aligned 20-byte chunk of the args equals the first 20 bytes of
    [temp]. *)
Definition chunk_matches (args temp : bytes) : Prop :=
  exists k : nat,
    (BLAKE160_SIZE * k + BLAKE160_SIZE <= length args)%nat /\
    firstn BLAKE160_SIZE (skipn (BLAKE160_SIZE * k) args)
    = firstn BLAKE160_SIZE temp.

(** The message of a run of the builder, without the signature. *)
Definition message_of (r : Z + (bytes * bytes)) : Z + bytes :=
  match r with
  | inl e => inl e
  | inr (_, message) => inr message
  end.

(** The codes of [common.h] are error codes: none of them is 0. *)
Definition common_codes_nonzero `{Externals} : Prop :=
  ERROR_WITNESS_SIZE <> 0 /\ ERROR_SECP_PARSE_SIGNATURE <> 0 /\
  ERROR_SECP_RECOVER_PUBKEY <> 0 /\ ERROR_SECP_SERIALIZE_PUBKEY <> 0.

(** The codes the script names in its return statements. *)
Definition script_codes `{Externals} : list Z :=
  [ERROR_ARGUMENTS_LEN; ERROR_ENCODING; ERROR_SYSCALL; ERROR_SCRIPT_TOO_LONG;
   ERROR_GROUP_OUTPUT_INVALID; ERROR_GROUP_INPUT_INVALID;
   ERROR_CAPACITY_INVALID; ERROR_VALIDATOR_SIGNATURE_INVALID;
   ERROR_WITNESS_SIZE; ERROR_SECP_PARSE_SIGNATURE;
   ERROR_SECP_RECOVER_PUBKEY; ERROR_SECP_SERIALIZE_PUBKEY].

(** The return values the script passes on unchanged: of the two capacity
    loads (lines 113, 120), of the load of the transaction hash (line 193)
    and of the initialisation of secp256k1 (line 280). *)
Definition passed_on (h : Host) : list Z :=
  [fst (ckb_load_cell_by_field h 0 CKB_SOURCE_GROUP_INPUT);
   fst (ckb_load_cell_by_field h 0 CKB_SOURCE_GROUP_OUTPUT);
   fst (ckb_load_tx_hash h);
   ckb_secp256k1_custom_verify_only_initialize h].

(** The Transfer path ran to its end and found the validator. *)
Definition validator_matched `{Externals} (h : Host) : Prop :=
  exists lock_bytes message temp,
    signing_message h = inr (lock_bytes, message) /\
    recover_pubkey_hash h lock_bytes message = inr temp /\
    chunk_matches (script_args (snd (ckb_load_script h))) temp.

(** The script of the host loads and fits the buffer (lines 77-83). *)
Definition script_loads (h : Host) : Prop :=
  fst (ckb_load_script h) = CKB_SUCCESS /\
  Z.of_nat (length (snd (ckb_load_script h))) <= SCRIPT_SIZE.

(** Both capacities load and the input's does not exceed the output's
    (lines 108-125). *)
Definition capacity_ok (h : Host) : Prop :=
  fst (ckb_load_cell_by_field h 0 CKB_SOURCE_GROUP_INPUT) = CKB_SUCCESS /\
  fst (ckb_load_cell_by_field h 0 CKB_SOURCE_GROUP_OUTPUT) = CKB_SUCCESS /\
  u64 (snd (ckb_load_cell_by_field h 0 CKB_SOURCE_GROUP_INPUT))
  <= u64 (snd (ckb_load_cell_by_field h 0 CKB_SOURCE_GROUP_OUTPUT)).

(** The witness loop as a function of the answers still ahead. *)
Fixpoint hash_answers `{Externals} (answers : list (Z * bytes))
  (blake2b_ctx : blake2b_state) : Z + blake2b_state :=
  match answers with
  | [] => inr blake2b_ctx
  | (ret, temp) :: rest =>
      if ret =? CKB_INDEX_OUT_OF_BOUND then inr blake2b_ctx
      else if negb (ret =? CKB_SUCCESS) then inl ERROR_SYSCALL
      else if Z.of_nat (length temp) >? MAX_WITNESS_SIZE
      then inl ERROR_WITNESS_SIZE
      else hash_answers rest
             (blake2b_update
                (blake2b_update blake2b_ctx (le64 (Z.of_nat (length temp))))
                temp)
  end.

(** The checks of [verify_transfer] before the message is built pass
    (lines 108-158). *)
Definition args_accepted `{Externals} (h : Host) : Prop :=
  capacity_ok h /\ script_loads h /\
  MolReader_Script_verify (snd (ckb_load_script h)) = true /\
  Z.of_nat (length (script_args (snd (ckb_load_script h))))
    mod Z.of_nat BLAKE160_SIZE = 0.

(** The return statements of [verify_transfer], each with the condition
    under which the script reaches it. *)
Inductive transfer_returns `{Externals} (h : Host) : Z -> Prop :=
| return_input_capacity_load :
    fst (ckb_load_cell_by_field h 0 CKB_SOURCE_GROUP_INPUT) <> CKB_SUCCESS ->
    transfer_returns h
      (fst (ckb_load_cell_by_field h 0 CKB_SOURCE_GROUP_INPUT))
| return_output_capacity_load :
    fst (ckb_load_cell_by_field h 0 CKB_SOURCE_GROUP_INPUT) = CKB_SUCCESS ->
    fst (ckb_load_cell_by_field h 0 CKB_SOURCE_GROUP_OUTPUT) <> CKB_SUCCESS ->
    transfer_returns h
      (fst (ckb_load_cell_by_field h 0 CKB_SOURCE_GROUP_OUTPUT))
| return_capacity_invalid :
    fst (ckb_load_cell_by_field h 0 CKB_SOURCE_GROUP_INPUT) = CKB_SUCCESS ->
    fst (ckb_load_cell_by_field h 0 CKB_SOURCE_GROUP_OUTPUT) = CKB_SUCCESS ->
    u64 (snd (ckb_load_cell_by_field h 0 CKB_SOURCE_GROUP_INPUT))
    > u64 (snd (ckb_load_cell_by_field h 0 CKB_SOURCE_GROUP_OUTPUT)) ->
    transfer_returns h ERROR_CAPACITY_INVALID
| return_script_load :
    capacity_ok h ->
    fst (ckb_load_script h) <> CKB_SUCCESS ->
    transfer_returns h ERROR_SYSCALL
| return_script_too_long :
    capacity_ok h ->
    fst (ckb_load_script h) = CKB_SUCCESS ->
    Z.of_nat (length (snd (ckb_load_script h))) > SCRIPT_SIZE ->
    transfer_returns h ERROR_SCRIPT_TOO_LONG
| return_script_encoding :
    capacity_ok h -> script_loads h ->
    MolReader_Script_verify (snd (ckb_load_script h)) = false ->
    transfer_returns h ERROR_ENCODING
| return_args_len :
    capacity_ok h -> script_loads h ->
    MolReader_Script_verify (snd (ckb_load_script h)) = true ->
    Z.of_nat (length (script_args (snd (ckb_load_script h))))
      mod Z.of_nat BLAKE160_SIZE <> 0 ->
    transfer_returns h ERROR_ARGUMENTS_LEN
| return_in_message : forall e,
    args_accepted h ->
    signing_message h = inl e ->
    transfer_returns h e
| return_in_recovery : forall lock_bytes message e,
    args_accepted h ->
    signing_message h = inr (lock_bytes, message) ->
    recover_pubkey_hash h lock_bytes message = inl e ->
    transfer_returns h e
| return_of_matcher : forall lock_bytes message temp,
    args_accepted h ->
    signing_message h = inr (lock_bytes, message) ->
    recover_pubkey_hash h lock_bytes message = inr temp ->
    transfer_returns h
      (match_validators (script_args (snd (ckb_load_script h))) temp).

(** The three conditions under which a transaction with one cell in each
    group is said to be accepted. *)
Definition transfer_conditions `{Externals} (h : Host) : Prop :=
  u64 (snd (ckb_load_cell_by_field h 0 CKB_SOURCE_GROUP_INPUT))
  <= u64 (snd (ckb_load_cell_by_field h 0 CKB_SOURCE_GROUP_OUTPUT)) /\
  size (snd (extract_witness_lock
               (snd (ckb_load_witness h 0 CKB_SOURCE_GROUP_INPUT))))
  = SIGNATURE_SIZE /\
  validator_matched h.

(** No value that [verify_transfer] passes on or takes from [common.h]
    after the capacity check is the capacity code. *)
Definition capacity_code_reserved `{Externals} (h : Host) : Prop :=
  fst (ckb_load_tx_hash h) <> ERROR_CAPACITY_INVALID /\
  ckb_secp256k1_custom_verify_only_initialize h <> ERROR_CAPACITY_INVALID /\
  ERROR_WITNESS_SIZE <> ERROR_CAPACITY_INVALID /\
  ERROR_SECP_PARSE_SIGNATURE <> ERROR_CAPACITY_INVALID /\
  ERROR_SECP_RECOVER_PUBKEY <> ERROR_CAPACITY_INVALID /\
  ERROR_SECP_SERIALIZE_PUBKEY <> ERROR_CAPACITY_INVALID.

(** The statuses of an enumeration of cells up to the out-of-range
    signal. *)
Fixpoint statuses_before_out_of_bound (answers : list Z) : list Z :=
  match answers with
  | [] => []
  | ret :: rest =>
      if ret =? CKB_INDEX_OUT_OF_BOUND then []
      else ret :: statuses_before_out_of_bound rest
  end.

(** Counting the cells of these answers makes the host store past the
    one-byte buffer of [get_cell_num]: some success before the first
    out-of-range answer stores more than one byte, [len] being what the
    success before it reported (1 at the start). *)
Fixpoint stores_past_buffer (answers : list (Z * bytes)) (len : Z) : bool :=
  match answers with
  | [] => false
  | (ret, data) :: rest =>
      if ret =? CKB_INDEX_OUT_OF_BOUND then false
      else if ret =? CKB_SUCCESS then
        (Z.min len (Z.of_nat (length data)) >? 1)
        || stores_past_buffer rest (Z.of_nat (length data))
      else stores_past_buffer rest len
  end.

(** Two hosts that differ at most in the witnesses of the inputs of the
    transaction that the script does not enumerate: those at an index
    below the number of inputs, seen through the whole-transaction
    source. *)
Definition same_but_unguarded_witnesses (h h' : Host) : Prop :=
  script_of h' = script_of h /\
  cell_data h' = cell_data h /\
  cell_capacity h' = cell_capacity h /\
  tx_hash_of h' = tx_hash_of h /\
  inputs_len h' = inputs_len h /\
  secp256k1_initialize h' = secp256k1_initialize h /\
  witnesses h' CKB_SOURCE_GROUP_INPUT = witnesses h CKB_SOURCE_GROUP_INPUT /\
  skipn (inputs_len h) (witnesses h' CKB_SOURCE_INPUT)
  = skipn (inputs_len h) (witnesses h CKB_SOURCE_INPUT).

(** ** A sample environment

    Concrete libraries and transactions on which the theorems are run.
    The readers follow the Molecule layout of [Script] and [WitnessArgs];
    the hash and the curve are stand-ins with the interface of the real
    ones (the theorems hold for every choice of them). *)

Module Sample.

Definition le32 (n : Z) : bytes := firstn 4 (le64 n).

(** [Script]: a 16-byte table header, [code_hash] (32 bytes), [hash_type]
    (1 byte), then [args] as a 4-byte length and the raw bytes. *)
Definition Script_verify (s : bytes) : bool :=
  (53 <=? length s)%nat
  && (le_decode (firstn 4 (skipn 49 s)) =? Z.of_nat (length s) - 53).

(** [WitnessArgs]: a 16-byte table header, then the lock field as a
    4-byte length and the raw bytes. *)
Definition witness_lock (w : bytes) : Z * mol_seg_t :=
  let n := le_decode (firstn 4 (skipn 16 w)) in
  if (length w <? 20)%nat || (Z.of_nat (length w) <? 20 + n)
  then (ERROR_ENCODING, {| ptr := 0; size := 0 |})
  else (0, {| ptr := 20; size := n |}).

(** The stand-in for blake2b: 32 bytes that depend on every byte of the
    input and on its position. *)
Definition checksum (m : bytes) : bytes :=
  let sum :=
    fold_left (fun acc b => (acc * 257 + Z_of_byte b + 1) mod 2 ^ 256) m 0 in
  map (fun k => byte_of_Z (Z.shiftr sum (8 * Z.of_nat k))) (seq 0 32).

#[export] Instance externals : Externals := {|
  secp256k1_ecdsa_recoverable_signature := bytes;
  secp256k1_pubkey := bytes;
  blake2b := checksum;
  MolReader_Script_verify := Script_verify;
  MolReader_Script_get_args := skipn 49;
  MolReader_Bytes_raw_bytes := skipn 4;
  extract_witness_lock := witness_lock;
  secp256k1_ecdsa_recoverable_signature_parse_compact :=
    fun lock recid => if recid <? 4 then Some (firstn 64 lock) else None;
  secp256k1_ecdsa_recover :=
    fun signature message =>
      match message with
      | [] => None
      | _ => Some (x02 :: firstn 32 signature)
      end;
  secp256k1_ec_pubkey_serialize := fun pubkey => Some pubkey;
  ERROR_WITNESS_SIZE := -22;
  ERROR_SECP_PARSE_SIGNATURE := -14;
  ERROR_SECP_RECOVER_PUBKEY := -11;
  ERROR_SECP_SERIALIZE_PUBKEY := -15
|}.

Definition script_with (args : bytes) : bytes :=
  repeat x00 49 ++ le32 (Z.of_nat (length args)) ++ args.

Definition witness_with (lock : bytes) : bytes :=
  repeat x00 16 ++ le32 (Z.of_nat (length lock)) ++ lock.

(** A signature, and the short hash of the key it recovers to. *)
Definition signed : bytes := repeat x01 64 ++ [x00].
Definition H2 : bytes :=
  Eval vm_compute in firstn 20 (checksum (x02 :: firstn 32 signed)).
Definition H1 : bytes := repeat x09 20.

(** A transaction with [n_in] cells in the group of inputs, [n_out] in the
    group of outputs (all with empty data), the two capacities, the args
    and the lock field of witness 0. *)
Definition tx (n_in n_out : nat) (cap_in cap_out : Z) (args lock : bytes)
  : Host := {|
  script_of := (CKB_SUCCESS, script_with args);
  cell_data := fun src =>
    match src with
    | CKB_SOURCE_GROUP_INPUT => repeat (CKB_SUCCESS, []) n_in
    | CKB_SOURCE_GROUP_OUTPUT => repeat (CKB_SUCCESS, []) n_out
    | CKB_SOURCE_INPUT => repeat (CKB_SUCCESS, []) n_in
    end;
  cell_capacity := fun src =>
    match src with
    | CKB_SOURCE_GROUP_INPUT => repeat (CKB_SUCCESS, cap_in) n_in
    | CKB_SOURCE_GROUP_OUTPUT => repeat (CKB_SUCCESS, cap_out) n_out
    | CKB_SOURCE_INPUT => repeat (CKB_SUCCESS, cap_in) n_in
    end;
  witnesses := fun src =>
    match src with
    | CKB_SOURCE_GROUP_OUTPUT => []
    | _ => [(CKB_SUCCESS, witness_with lock)]
    end;
  tx_hash_of := (CKB_SUCCESS, repeat x07 32);
  inputs_len := n_in;
  secp256k1_initialize := 0
|}.

(** The transaction of the end-to-end example of the specification. *)
Definition transfer : Host := tx 1 1 1000 1000 (H1 ++ H2) signed.

(** The same with two more witnesses: one for a second cell of the group,
    one past the inputs of the transaction. *)
Definition transfer_more : Host := {|
  script_of := script_of transfer;
  cell_data := cell_data transfer;
  cell_capacity := cell_capacity transfer;
  witnesses := fun src =>
    match src with
    | CKB_SOURCE_GROUP_INPUT =>
        [(CKB_SUCCESS, witness_with signed); (CKB_SUCCESS, [x0a; x0b])]
    | CKB_SOURCE_GROUP_OUTPUT => []
    | CKB_SOURCE_INPUT =>
        [(CKB_SUCCESS, witness_with signed); (CKB_SUCCESS, [x0c])]
    end;
  tx_hash_of := tx_hash_of transfer;
  inputs_len := 1;
  secp256k1_initialize := 0
|}.

(** The same without the cell that carries the tables of the curve: the
    initialisation of secp256k1 fails with the status of its lookup. *)
Definition transfer_no_secp_data : Host := {|
  script_of := script_of transfer;
  cell_data := cell_data transfer;
  cell_capacity := cell_capacity transfer;
  witnesses := witnesses transfer;
  tx_hash_of := tx_hash_of transfer;
  inputs_len := inputs_len transfer;
  secp256k1_initialize := CKB_INDEX_OUT_OF_BOUND
|}.

(** A script one byte longer than the buffer, on two output cells. *)
Definition long_script_two_outputs : Host := {|
  script_of := (CKB_SUCCESS, repeat x00 (Z.to_nat 32769));
  cell_data := cell_data (tx 0 2 0 1000 [] []);
  cell_capacity := cell_capacity (tx 0 2 0 1000 [] []);
  witnesses := witnesses (tx 0 2 0 1000 [] []);
  tx_hash_of := tx_hash_of transfer;
  inputs_len := 0;
  secp256k1_initialize := 0
|}.

(** A transaction that creates one cell of the group, the host answering
    the query for its data with the status [ret] and the data [data]. *)
Definition init_with_cell (ret : Z) (data : bytes) : Host := {|
  script_of := script_of transfer;
  cell_data := fun src =>
    match src with
    | CKB_SOURCE_GROUP_OUTPUT => [(ret, data)]
    | _ => []
    end;
  cell_capacity := cell_capacity (tx 0 1 0 1000 [] []);
  witnesses := fun _ => [];
  tx_hash_of := tx_hash_of transfer;
  inputs_len := 1;
  secp256k1_initialize := 0
|}.

(** A transaction that creates two cells of the group with the data
    [data0] and [data1]. *)
Definition init_two_cells (data0 data1 : bytes) : Host := {|
  script_of := script_of transfer;
  cell_data := fun src =>
    match src with
    | CKB_SOURCE_GROUP_OUTPUT => [(CKB_SUCCESS, data0); (CKB_SUCCESS, data1)]
    | _ => []
    end;
  cell_capacity := cell_capacity (tx 0 2 0 1000 [] []);
  witnesses := fun _ => [];
  tx_hash_of := tx_hash_of transfer;
  inputs_len := 1;
  secp256k1_initialize := 0
|}.

(** Two inputs, the second outside the group: its witness is seen through
    the whole-transaction source only. *)
Definition transfer_two_inputs (other : bytes) : Host := {|
  script_of := script_of transfer;
  cell_data := cell_data transfer;
  cell_capacity := cell_capacity transfer;
  witnesses := fun src =>
    match src with
    | CKB_SOURCE_GROUP_INPUT => [(CKB_SUCCESS, witness_with signed)]
    | CKB_SOURCE_GROUP_OUTPUT => []
    | CKB_SOURCE_INPUT =>
        [(CKB_SUCCESS, witness_with signed); (CKB_SUCCESS, other);
         (CKB_SUCCESS, [x0c])]
    end;
  tx_hash_of := tx_hash_of transfer;
  inputs_len := 2;
  secp256k1_initialize := 0
|}.

(** The witnesses of a group of three cells, the third load answered with
    the status [ret] and the bytes [w]. *)
Definition transfer_third_witness (ret : Z) (w : bytes) : Host := {|
  script_of := script_of transfer;
  cell_data := cell_data transfer;
  cell_capacity := cell_capacity transfer;
  witnesses := fun src =>
    match src with
    | CKB_SOURCE_GROUP_OUTPUT => []
    | _ =>
        [(CKB_SUCCESS, witness_with signed); (CKB_SUCCESS, [x0a; x0b]);
         (ret, w); (CKB_SUCCESS, [x0d])]
    end;
  tx_hash_of := tx_hash_of transfer;
  inputs_len := 3;
  secp256k1_initialize := 0
|}.

End Sample.


(** * Properties *)

(** ** Buffers *)

Lemma bytes_eqb_eq (a b : bytes) : bytes_eqb a b = true <-> a = b.
Proof.
  revert b; induction a as [|x a IH]; intros [|y b]; simpl;
    try (split; [discriminate | congruence ]); try tauto.
  rewrite andb_true_iff, IH. split.
  - intros [Hxy ->]. apply Byte.byte_dec_bl in Hxy. now subst.
  - intros [= -> ->]. split; [now apply Byte.byte_dec_lb | reflexivity].
Qed.

Lemma Z_of_byte_of_Z (z : Z) : Z_of_byte (byte_of_Z z) = z mod 256.
Proof.
  unfold Z_of_byte, byte_of_Z.
  assert (Hz : 0 <= z mod 256 < 256) by (apply Z.mod_pos_bound; lia).
  destruct (Byte.of_N (Z.to_N (z mod 256))) as [b|] eqn:E.
  - apply Byte.to_of_N in E. rewrite E. lia.
  - apply Byte.of_N_None_iff in E. lia.
Qed.

Lemma le_decode_shifts (n : Z) :
  forall k i : nat,
    le_decode (map (fun j => byte_of_Z (Z.shiftr n (8 * Z.of_nat j)))
                 (seq i k))
    = Z.shiftr n (8 * Z.of_nat i) mod 2 ^ (8 * Z.of_nat k).
Proof.
  induction k as [|k IH]; intros i.
  - simpl. now rewrite Z.mod_1_r.
  - cbn [seq map le_decode fold_right]. fold (le_decode
      (map (fun j => byte_of_Z (Z.shiftr n (8 * Z.of_nat j))) (seq (S i) k))).
    rewrite IH, Z_of_byte_of_Z.
    replace (8 * Z.of_nat (S k)) with (8 + 8 * Z.of_nat k) by lia.
    rewrite Z.pow_add_r by lia. change (2 ^ 8) with 256.
    rewrite Z.rem_mul_r by lia. do 3 f_equal.
    replace (8 * Z.of_nat (S i)) with (8 * Z.of_nat i + 8) by lia.
    rewrite <- Z.shiftr_shiftr by lia.
    now rewrite (Z.shiftr_div_pow2 _ 8) by lia.
Qed.

(** X12: the length fed before a witness is its 64-bit value in eight
    bytes, least significant first: reading the eight bytes back as a
    little-endian number gives the length modulo 2^64. *)
Lemma le64_little_endian (n : Z) :
  length (le64 n) = 8%nat /\ le_decode (le64 n) = u64 n.
Proof.
  split; [reflexivity|]. unfold le64, u64.
  rewrite le_decode_shifts. now rewrite Z.shiftr_0_r.
Qed.

Lemma memcmp_eq_spec (a : bytes) (off : nat) (b : bytes) (n : nat) :
  memcmp_eq a off b n = true <-> firstn n (skipn off a) = firstn n b.
Proof. apply bytes_eqb_eq. Qed.

Lemma memset_from_length (buf : bytes) (i off n : nat) (c : byte) :
  length (memset_from buf i off n c) = length buf.
Proof.
  revert i; induction buf as [|b buf IH]; intros i; simpl; [reflexivity|].
  now rewrite IH.
Qed.

Lemma memset_from_outside (buf : bytes) (i off n : nat) (c : byte) :
  (off + n <= i)%nat -> memset_from buf i off n c = buf.
Proof.
  revert i; induction buf as [|b buf IH]; intros i Hi; simpl; [reflexivity|].
  rewrite IH by lia.
  destruct (off <=? i)%nat eqn:E1; destruct (i <? off + n)%nat eqn:E2;
    simpl; try reflexivity.
  apply Nat.ltb_lt in E2. lia.
Qed.

Lemma memset_from_inside (buf : bytes) (i off n : nat) (c : byte) :
  (off <= i)%nat -> (i + length buf <= off + n)%nat ->
  memset_from buf i off n c = repeat c (length buf).
Proof.
  revert i; induction buf as [|b buf IH]; intros i Hi Hn; simpl in *;
    [reflexivity|].
  rewrite IH by lia.
  destruct (off <=? i)%nat eqn:E1; destruct (i <? off + n)%nat eqn:E2;
    simpl; try reflexivity.
  - apply Nat.ltb_ge in E2. lia.
  - apply Nat.leb_gt in E1. lia.
  - apply Nat.leb_gt in E1. lia.
Qed.

Lemma memset_from_app (a b : bytes) (i off n : nat) (c : byte) :
  memset_from (a ++ b) i off n c
  = memset_from a i off n c ++ memset_from b (i + length a) off n c.
Proof.
  revert i; induction a as [|x a IH]; intros i; simpl.
  - now rewrite Nat.add_0_r.
  - rewrite IH. do 3 f_equal. lia.
Qed.

Lemma memset_from_before (buf : bytes) (i off n : nat) (c : byte) :
  (i + length buf <= off)%nat -> memset_from buf i off n c = buf.
Proof.
  revert i; induction buf as [|b buf IH]; intros i Hi; simpl in *;
    [reflexivity|].
  rewrite IH by lia.
  destruct (off <=? i)%nat eqn:E1; simpl; try reflexivity.
  apply Nat.leb_le in E1. lia.
Qed.

(** Zeroing a segment that lies inside the buffer: the bytes before it,
    zeros, the bytes after it. *)
Lemma memset_inside (buf : bytes) (off : nat) (c : byte) (n : Z) :
  0 <= n -> (off + Z.to_nat n <= length buf)%nat ->
  memset buf off c n
  = firstn off buf ++ repeat c (Z.to_nat n) ++ skipn (off + Z.to_nat n) buf.
Proof.
  intros Hn Hin. unfold memset.
  rewrite <- (firstn_skipn off buf) at 1.
  rewrite memset_from_app, memset_from_before by (rewrite length_firstn; lia).
  f_equal. rewrite length_firstn, Nat.min_l by lia. simpl.
  rewrite <- (firstn_skipn (Z.to_nat n) (skipn off buf)) at 1.
  rewrite memset_from_app.
  assert (Hl : length (firstn (Z.to_nat n) (skipn off buf)) = Z.to_nat n).
  { rewrite length_firstn, length_skipn. lia. }
  rewrite memset_from_inside by lia.
  rewrite Hl, memset_from_outside by lia.
  now rewrite skipn_skipn, (Nat.add_comm (Z.to_nat n)).
Qed.

(** The zeroed buffer does not depend on the bytes that were in the
    segment. *)
Lemma memset_replace_lock (w : bytes) (off : nat) (lock : bytes) :
  (off + length lock <= length w)%nat ->
  memset (replace_lock w off lock) off x00 (Z.of_nat (length lock))
  = memset w off x00 (Z.of_nat (length lock)).
Proof.
  intros Hin.
  assert (Hl : length (firstn off w) = off) by (rewrite length_firstn; lia).
  rewrite !memset_inside; rewrite ?Nat2Z.id; try lia.
  - unfold replace_lock. f_equal; [|f_equal].
    + rewrite firstn_app, Hl, Nat.sub_diag, firstn_O, app_nil_r.
      now rewrite firstn_firstn, Nat.min_id.
    + rewrite skipn_app, Hl.
      rewrite (skipn_all2 (firstn off w)) by lia. simpl.
      replace (off + length lock - off)%nat with (length lock) by lia.
      rewrite skipn_app, Nat.sub_diag, skipn_all. reflexivity.
  - unfold replace_lock.
    rewrite !length_app, length_firstn, length_skipn. lia.
Qed.

Lemma replace_lock_length (w : bytes) (off : nat) (lock : bytes) :
  (off + length lock <= length w)%nat ->
  length (replace_lock w off lock) = length w.
Proof.
  intros Hin. unfold replace_lock.
  rewrite !length_app, length_firstn, length_skipn. lia.
Qed.

(** ** The loops *)

Lemma skipn_cons_nth {A : Type} (l : list A) (i : nat) (a d : A)
  (rest : list A) :
  skipn i l = a :: rest -> nth i l d = a /\ skipn (i + 1) l = rest.
Proof.
  revert i; induction l as [|x l IH]; intros [|i]; simpl; try discriminate.
  - intros [= -> ->]. now split.
  - apply IH.
Qed.

Lemma skipn_nil_nth {A : Type} (l : list A) (i : nat) (d : A) :
  skipn i l = [] -> nth i l d = d.
Proof.
  revert i; induction l as [|x l IH]; intros [|i]; simpl; try discriminate;
    auto.
Qed.

Section Loops.
Context `{Externals}.

Lemma ckb_load_cell_data_skipn (h : Host) (room len : Z) (i : nat)
  (src : source) :
  ckb_load_cell_data h room len i src
  = match skipn i (cell_data h src) with
    | [] => Some (CKB_INDEX_OUT_OF_BOUND, len)
    | (ret, data) :: _ =>
        if ret =? CKB_SUCCESS then
          if Z.min len (Z.of_nat (length data)) >? room then None
          else Some (ret, Z.of_nat (length data))
        else Some (ret, len)
    end.
Proof.
  unfold ckb_load_cell_data.
  destruct (skipn i (cell_data h src)) as [|[ret data] rest] eqn:E.
  - now rewrite (skipn_nil_nth _ _ _ E).
  - pose proof (fun d => proj1 (skipn_cons_nth _ _ _ d _ E)) as Hnth.
    now rewrite Hnth.
Qed.

(** [get_cell_num] as a function of the answers still ahead: it stops at
    the first out-of-range answer, after one query per index, unless a
    query stores past the buffer. *)
Lemma get_cell_num_loop_answers (h : Host) (src : source) :
  forall (fuel i : nat) (len : Z) (log : list Z),
    (i <= length (cell_data h src))%nat ->
    (length (cell_data h src) < i + fuel)%nat ->
    get_cell_num_loop h src fuel i len log
    = if stores_past_buffer (skipn i (cell_data h src)) len then None
      else
        let before :=
          statuses_before_out_of_bound
            (map fst (skipn i (cell_data h src))) in
        Some ((i + length before)%nat,
              log ++ before ++ [CKB_INDEX_OUT_OF_BOUND]).
Proof.
  induction fuel as [|fuel IH]; intros i len log Hi Hfuel; [lia|].
  cbn [get_cell_num_loop]. rewrite ckb_load_cell_data_skipn.
  destruct (skipn i (cell_data h src)) as [|[ret data] rest] eqn:E.
  - cbn. now rewrite Nat.add_0_r.
  - assert (Hrest : skipn (i + 1) (cell_data h src) = rest).
    { eapply (skipn_cons_nth _ _ _ (ret, data)). exact E. }
    assert (Hlt : (i < length (cell_data h src))%nat).
    { destruct (Nat.lt_ge_cases i (length (cell_data h src))); auto.
      rewrite skipn_all2 in E by lia. discriminate E. }
    cbn [stores_past_buffer map fst statuses_before_out_of_bound].
    destruct (Z.eqb_spec ret CKB_SUCCESS) as [->|Hsucc].
    + change (CKB_SUCCESS =? CKB_INDEX_OUT_OF_BOUND) with false.
      destruct (Z.min len (Z.of_nat (length data)) >? 1); [reflexivity|].
      cbn [orb]. rewrite IH, Hrest by lia.
      destruct (stores_past_buffer rest (Z.of_nat (length data)));
        [reflexivity|].
      cbv zeta. cbn [length]. apply f_equal.
      apply f_equal2; [lia | now rewrite <- app_assoc].
    + destruct (Z.eqb_spec ret CKB_INDEX_OUT_OF_BOUND) as [->|Hoob].
      * cbn. now rewrite Nat.add_0_r.
      * rewrite IH, Hrest by lia.
        destruct (stores_past_buffer rest len); [reflexivity|].
        cbv zeta. cbn [length]. apply f_equal.
        apply f_equal2; [lia | now rewrite <- app_assoc].
Qed.

Lemma ckb_load_witness_skipn (h : Host) (i : nat) (src : source) :
  match skipn i (witnesses h src) with
  | [] => fst (ckb_load_witness h i src) = CKB_INDEX_OUT_OF_BOUND
  | a :: rest =>
      ckb_load_witness h i src = a /\ skipn (i + 1) (witnesses h src) = rest
  end.
Proof.
  unfold ckb_load_witness.
  destruct (skipn i (witnesses h src)) as [|a rest] eqn:E.
  - now rewrite (skipn_nil_nth _ _ _ E).
  - eapply skipn_cons_nth. exact E.
Qed.

Lemma hash_witnesses_loop_answers (h : Host) (src : source) :
  forall (fuel i : nat) (ctx : blake2b_state),
    (length (witnesses h src) < i + fuel)%nat ->
    hash_witnesses_loop h src fuel i ctx
    = hash_answers (skipn i (witnesses h src)) ctx.
Proof.
  induction fuel as [|fuel IH]; intros i ctx Hfuel.
  - simpl. now rewrite skipn_all2 by lia.
  - cbn [hash_witnesses_loop].
    pose proof (ckb_load_witness_skipn h i src) as Hload.
    destruct (skipn i (witnesses h src)) as [|[ret temp] rest].
    + destruct (ckb_load_witness h i src) as [ret temp]. simpl in Hload.
      now rewrite Hload.
    + destruct Hload as [-> Hrest]. cbn [hash_answers].
      rewrite IH, Hrest by lia. reflexivity.
Qed.

Lemma hash_witnesses_answers (h : Host) (src : source) (i : nat)
  (ctx : blake2b_state) :
  hash_witnesses h src i ctx = hash_answers (skipn i (witnesses h src)) ctx.
Proof. apply hash_witnesses_loop_answers. lia. Qed.

(** When every load before the out-of-range signal succeeds within the
    cap, the loop feeds the witnesses in order, each after its length. *)
Lemma hash_answers_entries (answers : list (Z * bytes)) :
  forall ctx : blake2b_state,
    Forall loads_within_cap (until_out_of_bound answers) ->
    hash_answers answers ctx
    = inr (ctx ++ witness_entries (until_out_of_bound answers)).
Proof.
  induction answers as [|[ret temp] rest IH]; intros ctx Hall; simpl.
  - now rewrite app_nil_r.
  - simpl in Hall. destruct (ret =? CKB_INDEX_OUT_OF_BOUND).
    + now rewrite app_nil_r.
    + inversion Hall as [|? ? [Hret Hlen] Hrest]; subst. simpl in *.
      rewrite Hret. simpl.
      destruct (Z.gtb_spec (Z.of_nat (length temp)) MAX_WITNESS_SIZE);
        [lia|].
      rewrite IH by assumption. unfold blake2b_update, witness_entries.
      simpl. unfold witness_entry. now rewrite <- !app_assoc.
Qed.

Lemma hash_answers_codes (answers : list (Z * bytes)) :
  forall (ctx : blake2b_state) (e : Z),
    hash_answers answers ctx = inl e ->
    e = ERROR_SYSCALL \/ e = ERROR_WITNESS_SIZE.
Proof.
  induction answers as [|[ret temp] rest IH]; intros ctx e; simpl;
    [discriminate|].
  destruct (ret =? CKB_INDEX_OUT_OF_BOUND); [discriminate|].
  destruct (ret =? CKB_SUCCESS); cbn [negb]; [|intros [= <-]; auto].
  destruct (Z.of_nat (length temp) >? MAX_WITNESS_SIZE);
    [intros [= <-]; auto|]. apply IH.
Qed.

(** The scan of the validators accepts exactly when some aligned chunk of
    the args matches, and fails with the validator error otherwise. *)
Lemma match_validators_loop_spec (args temp : bytes) :
  forall fuel k : nat,
    (length args < BLAKE160_SIZE * k + BLAKE160_SIZE * fuel)%nat ->
    (match_validators_loop args temp fuel (BLAKE160_SIZE * k) = CKB_SUCCESS
     /\ exists k', (k <= k')%nat /\
          (BLAKE160_SIZE * k' + BLAKE160_SIZE <= length args)%nat /\
          firstn BLAKE160_SIZE (skipn (BLAKE160_SIZE * k') args)
          = firstn BLAKE160_SIZE temp)
    \/ (match_validators_loop args temp fuel (BLAKE160_SIZE * k)
        = ERROR_VALIDATOR_SIGNATURE_INVALID
        /\ forall k', (k <= k')%nat ->
             (BLAKE160_SIZE * k' + BLAKE160_SIZE <= length args)%nat ->
             firstn BLAKE160_SIZE (skipn (BLAKE160_SIZE * k') args)
             <> firstn BLAKE160_SIZE temp).
Proof.
  unfold BLAKE160_SIZE.
  induction fuel as [|fuel IH]; intros k Hfuel.
  - right. split; [reflexivity|]. intros k' Hk Hin. lia.
  - cbn [match_validators_loop]. unfold BLAKE160_SIZE.
    destruct (Nat.leb_spec (20 * k + 20) (length args)) as [Hin|Hout].
    + destruct (memcmp_eq args (20 * k) temp 20) eqn:E.
      * left. split; [reflexivity|]. exists k.
        apply memcmp_eq_spec in E. auto.
      * replace (20 * k + 20)%nat with (20 * S k)%nat by lia.
        destruct (IH (S k)) as [[Hr (k' & Hk' & Hin' & Heq)]|[Hr Hno]];
          [lia| |].
        -- left. split; [exact Hr|]. exists k'. repeat split; auto. lia.
        -- right. split; [exact Hr|]. intros k' Hk' Hin'.
           destruct (Nat.eq_dec k' k) as [->|Hne].
           ++ intros Heq. apply memcmp_eq_spec in Heq. congruence.
           ++ apply Hno; auto. lia.
    + right. split; [reflexivity|]. intros k' Hk' Hin'. lia.
Qed.

Lemma match_validators_accepts (args temp : bytes) :
  match_validators args temp = CKB_SUCCESS <-> chunk_matches args temp.
Proof.
  unfold match_validators, chunk_matches.
  destruct (match_validators_loop_spec args temp (S (length args)) 0)
    as [[Hr (k & _ & Hin & Heq)]|[Hr Hno]];
    [unfold BLAKE160_SIZE; lia| |]; simpl (_ * 0)%nat in Hr; rewrite Hr.
  - split; [|reflexivity]. intros _. now exists k.
  - split; [discriminate|]. intros (k & Hin & Heq).
    exfalso. apply (Hno k); auto. lia.
Qed.

Lemma match_validators_codes (args temp : bytes) :
  match_validators args temp = CKB_SUCCESS \/
  match_validators args temp = ERROR_VALIDATOR_SIGNATURE_INVALID.
Proof.
  unfold match_validators.
  destruct (match_validators_loop_spec args temp (S (length args)) 0)
    as [[Hr _]|[Hr _]]; [unfold BLAKE160_SIZE; lia| |];
    simpl (_ * 0)%nat in Hr; auto.
Qed.

End Loops.

(** ** The return statements *)

Section Returns.
Context `{Externals}.

Ltac with_loads C :=
  unfold args_accepted, capacity_ok, script_loads in C;
  repeat match goal with
         | E : _ = (_, _) |- _ => rewrite E in C
         end;
  cbn [fst snd] in C.

Ltac by_return c :=
  let C := fresh "C" in
  pose proof c as C; with_loads C; apply C; clear C;
  repeat split; auto; try lia.

(** Every run of [verify_transfer] ends in one of its return statements,
    under that statement's condition. *)
Lemma verify_transfer_returns (h : Host) :
  transfer_returns h (verify_transfer h).
Proof.
  unfold verify_transfer.
  destruct (ckb_load_cell_by_field h 0 CKB_SOURCE_GROUP_INPUT)
    as [r1 input_capacity] eqn:E1.
  destruct (Z.eqb_spec r1 CKB_SUCCESS) as [R1|R1]; cbn [negb];
    [|by_return (return_input_capacity_load h)].
  destruct (ckb_load_cell_by_field h 0 CKB_SOURCE_GROUP_OUTPUT)
    as [r2 output_capacity] eqn:E2.
  destruct (Z.eqb_spec r2 CKB_SUCCESS) as [R2|R2]; cbn [negb];
    [|by_return (return_output_capacity_load h)].
  destruct (Z.gtb_spec (u64 input_capacity) (u64 output_capacity))
    as [Hcap|Hcap]; [by_return (return_capacity_invalid h)|].
  destruct (ckb_load_script h) as [r3 script] eqn:E3.
  destruct (Z.eqb_spec r3 CKB_SUCCESS) as [R3|R3]; cbn [negb];
    [|by_return (return_script_load h)].
  destruct (Z.gtb_spec (Z.of_nat (length script)) SCRIPT_SIZE)
    as [Hlen|Hlen]; [by_return (return_script_too_long h)|].
  destruct (MolReader_Script_verify script) eqn:Hverify; cbn [negb];
    [|by_return (return_script_encoding h)].
  destruct (Z.eqb_spec
              (Z.of_nat (length (script_args script))
                 mod Z.of_nat BLAKE160_SIZE) 0) as [Hargs|Hargs];
    cbn [negb]; [|by_return (return_args_len h)].
  destruct (signing_message h) as [e|[lock_bytes message]] eqn:Hmessage;
    [by_return (return_in_message h e)|].
  destruct (recover_pubkey_hash h lock_bytes message) as [e|temp]
    eqn:Hrecover.
  - by_return (return_in_recovery h lock_bytes message e).
  - by_return (return_of_matcher h lock_bytes message temp).
Qed.

(** The early returns of the message builder. *)
Lemma signing_message_codes (h : Host) (e : Z) :
  signing_message h = inl e ->
  In e [ERROR_SYSCALL; ERROR_WITNESS_SIZE; ERROR_ENCODING;
        ERROR_ARGUMENTS_LEN]
  \/ (e = fst (ckb_load_tx_hash h) /\ e <> CKB_SUCCESS).
Proof.
  unfold signing_message.
  destruct (ckb_load_witness h 0 CKB_SOURCE_GROUP_INPUT) as [r temp].
  destruct (Z.eqb_spec r CKB_SUCCESS); cbn [negb];
    [|intros [= <-]; left; simpl; auto].
  destruct (Z.of_nat (length temp) >? MAX_WITNESS_SIZE);
    [intros [= <-]; left; simpl; auto|].
  destruct (extract_witness_lock temp) as [r' seg].
  destruct (r' =? 0); cbn [negb]; [|intros [= <-]; left; simpl; auto].
  destruct (size seg =? SIGNATURE_SIZE); cbn [negb];
    [|intros [= <-]; left; simpl; tauto].
  destruct (ckb_load_tx_hash h) as [r'' tx_hash].
  destruct (Z.eqb_spec r'' CKB_SUCCESS); cbn [negb];
    [|intros [= <-]; right; simpl; auto].
  destruct (Z.of_nat (length tx_hash) =? BLAKE2B_BLOCK_SIZE); cbn [negb];
    [|intros [= <-]; left; simpl; auto].
  rewrite !hash_witnesses_answers.
  match goal with
  | |- context [hash_answers ?l ?c] =>
      destruct (hash_answers l c) as [eg|ctxg] eqn:Hgroup
  end.
  - intros [= <-]. left.
    destruct (hash_answers_codes _ _ _ Hgroup) as [->| ->]; simpl; auto.
  - cbn zeta. rewrite hash_witnesses_answers.
    match goal with
    | |- context [hash_answers ?l ?c] =>
        destruct (hash_answers l c) as [ex|ctxx] eqn:Hextra
    end; [|discriminate].
    intros [= <-]. left.
    destruct (hash_answers_codes _ _ _ Hextra) as [->| ->]; simpl; auto.
Qed.

(** The early returns of the recovery of the key. *)
Lemma recover_pubkey_hash_codes (h : Host) (lock_bytes message : bytes)
  (e : Z) :
  recover_pubkey_hash h lock_bytes message = inl e ->
  In e [ERROR_SECP_PARSE_SIGNATURE; ERROR_SECP_RECOVER_PUBKEY;
        ERROR_SECP_SERIALIZE_PUBKEY]
  \/ (e = ckb_secp256k1_custom_verify_only_initialize h /\ e <> 0).
Proof.
  unfold recover_pubkey_hash.
  destruct (Z.eqb_spec (ckb_secp256k1_custom_verify_only_initialize h) 0);
    cbn [negb]; [|intros [= <-]; right; auto].
  destruct (secp256k1_ecdsa_recoverable_signature_parse_compact _ _)
    as [signature|]; [|intros [= <-]; left; simpl; auto].
  destruct (secp256k1_ecdsa_recover signature message) as [pubkey|];
    [|intros [= <-]; left; simpl; auto].
  destruct (secp256k1_ec_pubkey_serialize pubkey) as [temp|];
    [discriminate|intros [= <-]; left; simpl; auto].
Qed.

End Returns.

(** ** Acceptance *)

Section Acceptance.
Context `{Externals}.

Lemma main_script_loads (h : Host) :
  script_loads h ->
  main h =
  match get_cell_num h CKB_SOURCE_GROUP_INPUT with
  | None => None
  | Some input_group_num =>
      match get_cell_num h CKB_SOURCE_GROUP_OUTPUT with
      | None => None
      | Some output_group_num =>
          if negb (output_group_num =? 1)
          then Some ERROR_GROUP_OUTPUT_INVALID
          else if negb (input_group_num =? 0)
                  && negb (input_group_num =? 1)
          then Some ERROR_GROUP_INPUT_INVALID
          else if input_group_num =? 0 then Some verify_init
          else Some (verify_transfer h)
      end
  end.
Proof.
  unfold script_loads, main. destruct (ckb_load_script h) as [ret script].
  cbn [fst snd]. intros [-> Hlen]. cbn [Z.eqb CKB_SUCCESS negb].
  destruct (Z.gtb_spec (Z.of_nat (length script)) SCRIPT_SIZE); [lia|].
  reflexivity.
Qed.

Lemma main_script_fails (h : Host) :
  ~ script_loads h ->
  main h = Some ERROR_SYSCALL \/ main h = Some ERROR_SCRIPT_TOO_LONG.
Proof.
  unfold script_loads, main. destruct (ckb_load_script h) as [ret script].
  cbn [fst snd]. intros Hno.
  destruct (Z.eqb_spec ret CKB_SUCCESS); cbn [negb]; auto.
  destruct (Z.gtb_spec (Z.of_nat (length script)) SCRIPT_SIZE); auto.
  exfalso. apply Hno. split; auto.
Qed.

Lemma script_loads_dec (h : Host) : script_loads h \/ ~ script_loads h.
Proof. unfold script_loads. lia. Qed.

(** On the Transfer path [main] is [verify_transfer]. *)
Lemma main_transfer (h : Host) :
  script_loads h ->
  get_cell_num h CKB_SOURCE_GROUP_INPUT = Some 1 ->
  get_cell_num h CKB_SOURCE_GROUP_OUTPUT = Some 1 ->
  main h = Some (verify_transfer h).
Proof.
  intros Hs Hin Hout. rewrite main_script_loads, Hin, Hout by assumption.
  reflexivity.
Qed.

(** Past its checks, [verify_transfer] returns what the matcher returns. *)
Lemma verify_transfer_matcher (h : Host) (lock_bytes message temp : bytes) :
  args_accepted h ->
  signing_message h = inr (lock_bytes, message) ->
  recover_pubkey_hash h lock_bytes message = inr temp ->
  verify_transfer h
  = match_validators (script_args (snd (ckb_load_script h))) temp.
Proof.
  unfold args_accepted, capacity_ok, script_loads, verify_transfer.
  destruct (ckb_load_cell_by_field h 0 CKB_SOURCE_GROUP_INPUT) as [r1 c1].
  destruct (ckb_load_cell_by_field h 0 CKB_SOURCE_GROUP_OUTPUT) as [r2 c2].
  destruct (ckb_load_script h) as [r3 script]. cbn [fst snd].
  intros ((-> & -> & Hcap) & (-> & Hlen) & -> & ->) -> ->.
  cbn [Z.eqb CKB_SUCCESS negb].
  destruct (Z.gtb_spec (u64 c1) (u64 c2)); [lia|].
  destruct (Z.gtb_spec (Z.of_nat (length script)) SCRIPT_SIZE); [lia|].
  reflexivity.
Qed.

(** [verify_transfer] accepts exactly when all its checks pass and the
    validator is found. *)
Lemma verify_transfer_accepts (h : Host) :
  common_codes_nonzero ->
  verify_transfer h = CKB_SUCCESS <-> args_accepted h /\ validator_matched h.
Proof.
  intros (Hw & Hp & Hr & Hs). split.
  - intros Hret. pose proof (verify_transfer_returns h) as Hcase.
    rewrite Hret in Hcase.
    inversion Hcase as
      [E1 | ? E1 | | | | | | e Hacc Hm | l m e Hacc Hm Hrec
       | l m temp Hacc Hm Hrec E1]; try congruence.
    + subst e. apply signing_message_codes in Hm.
      destruct Hm as [Hm|[_ Hm]]; [|congruence].
      simpl in Hm.
      destruct Hm as [Hm|[Hm|[Hm|[Hm|[]]]]]; try discriminate Hm.
      unfold CKB_SUCCESS in Hm. congruence.
    + subst e. apply recover_pubkey_hash_codes in Hrec.
      destruct Hrec as [Hrec|[_ Hrec]]; [|now elim Hrec].
      unfold CKB_SUCCESS in Hrec. simpl in Hrec.
      destruct Hrec as [?|[?|[?|[]]]]; congruence.
    + split; [assumption|]. exists l, m, temp. repeat split; auto.
      now apply match_validators_accepts.
  - intros [Hacc (l & m & temp & Hm & Hrec & Hchunk)].
    rewrite (verify_transfer_matcher h l m temp) by assumption.
    now apply match_validators_accepts.
Qed.

(** A message is only built around a lock field of 65 bytes. *)
Lemma signing_message_lock_size (h : Host) (lock_bytes message : bytes) :
  signing_message h = inr (lock_bytes, message) ->
  size (snd (extract_witness_lock
               (snd (ckb_load_witness h 0 CKB_SOURCE_GROUP_INPUT))))
  = SIGNATURE_SIZE.
Proof.
  unfold signing_message.
  destruct (ckb_load_witness h 0 CKB_SOURCE_GROUP_INPUT) as [r temp].
  cbn [snd].
  destruct (negb (r =? CKB_SUCCESS)); [discriminate|].
  destruct (Z.of_nat (length temp) >? MAX_WITNESS_SIZE); [discriminate|].
  destruct (extract_witness_lock temp) as [r' seg]. cbn [snd].
  destruct (negb (r' =? 0)); [discriminate|].
  destruct (Z.eqb_spec (size seg) SIGNATURE_SIZE); cbn [negb];
    [auto|discriminate].
Qed.

Lemma main_accepts_transfer (h : Host) :
  get_cell_num h CKB_SOURCE_GROUP_INPUT = Some 1 ->
  get_cell_num h CKB_SOURCE_GROUP_OUTPUT = Some 1 ->
  common_codes_nonzero ->
  main h = Some CKB_SUCCESS <-> args_accepted h /\ validator_matched h.
Proof.
  intros Hin Hout Hcodes. split.
  - intros Hret. destruct (script_loads_dec h) as [Hs|Hs].
    + rewrite main_transfer in Hret by assumption.
      injection Hret as Hret.
      now apply verify_transfer_accepts in Hret.
    + destruct (main_script_fails h Hs) as [E|E]; rewrite E in Hret;
        discriminate.
  - intros [Hacc Hmatch]. rewrite main_transfer; try assumption;
      [|apply Hacc].
    f_equal. apply verify_transfer_accepts; auto.
Qed.

(** C1 (amended): for a transaction with one cell in the group of inputs
    and one in the group of outputs, the script returns 0 if and only if
    the three conditions of the claim hold (the input capacity is at most
    the output capacity, the lock field of witness 0 has 65 bytes, the
    short hash of the recovered key is an aligned 20-byte chunk of the
    args) and moreover the earlier checks pass: the script loads within
    32768 bytes and verifies, both capacities load, and the length of the
    args is a multiple of 20. *)
Theorem transfer_accepted_iff (h : Host) :
  get_cell_num h CKB_SOURCE_GROUP_INPUT = Some 1 ->
  get_cell_num h CKB_SOURCE_GROUP_OUTPUT = Some 1 ->
  common_codes_nonzero ->
  main h = Some CKB_SUCCESS <-> transfer_conditions h /\ args_accepted h.
Proof.
  intros Hin Hout Hcodes.
  rewrite main_accepts_transfer by assumption.
  unfold transfer_conditions. split.
  - intros [Hacc Hmatch]. split; [|assumption].
    split; [apply Hacc|]. split; [|assumption].
    destruct Hmatch as (l & m & temp & Hm & _).
    now apply signing_message_lock_size in Hm.
  - tauto.
Qed.

(** C2 (amended): a transaction with no cell in the group of inputs and
    exactly one in the group of outputs, whose script loads within 32768
    bytes, is accepted, whatever its capacities, witnesses and args. *)
Theorem init_accepted (h : Host) :
  get_cell_num h CKB_SOURCE_GROUP_INPUT = Some 0 ->
  get_cell_num h CKB_SOURCE_GROUP_OUTPUT = Some 1 ->
  script_loads h ->
  main h = Some CKB_SUCCESS.
Proof.
  intros Hin Hout Hs. rewrite main_script_loads, Hin, Hout by assumption.
  reflexivity.
Qed.

End Acceptance.

(** ** Rejection *)

Section Rejection.
Context `{Externals}.

(** C5 (amended): on the Transfer path (one cell in each group), when the
    script loads within 32768 bytes and verifies and the capacity check
    passes, args whose length is not a multiple of 20 are rejected with
    the arguments-length error, whatever the witnesses, the transaction
    hash and the signature. *)
Theorem args_length_rejected (h : Host) :
  get_cell_num h CKB_SOURCE_GROUP_INPUT = Some 1 ->
  get_cell_num h CKB_SOURCE_GROUP_OUTPUT = Some 1 ->
  script_loads h ->
  capacity_ok h ->
  MolReader_Script_verify (snd (ckb_load_script h)) = true ->
  Z.of_nat (length (script_args (snd (ckb_load_script h))))
    mod Z.of_nat BLAKE160_SIZE <> 0 ->
  main h = Some ERROR_ARGUMENTS_LEN.
Proof.
  intros Hin Hout Hs Hcap Hverify Hargs.
  rewrite main_transfer by assumption. f_equal.
  revert Hs Hcap Hverify Hargs.
  unfold capacity_ok, script_loads, verify_transfer.
  destruct (ckb_load_cell_by_field h 0 CKB_SOURCE_GROUP_INPUT) as [r1 c1].
  destruct (ckb_load_cell_by_field h 0 CKB_SOURCE_GROUP_OUTPUT) as [r2 c2].
  destruct (ckb_load_script h) as [r3 script]. cbn [fst snd].
  intros (-> & Hlen) (-> & -> & Hcap) -> Hargs.
  cbn [Z.eqb CKB_SUCCESS negb].
  destruct (Z.gtb_spec (u64 c1) (u64 c2)); [lia|].
  destruct (Z.gtb_spec (Z.of_nat (length script)) SCRIPT_SIZE); [lia|].
  destruct (Z.eqb_spec
              (Z.of_nat (length (script_args script))
                 mod Z.of_nat BLAKE160_SIZE) 0); [contradiction|].
  reflexivity.
Qed.

(** C6 (amended): when the script loads within 32768 bytes and the
    count of each group comes back (no query stores past the one-byte
    buffer of the counter), every transaction whose group of outputs does
    not have exactly one cell is rejected with the group-output error,
    whatever the number of cells in the group of inputs; with more than
    one cell in the group of inputs the script returns the group-input
    error exactly when the group of outputs has one cell. *)
Theorem group_counts_rejected (h : Host) (input_group_num output_group_num : Z) :
  script_loads h ->
  get_cell_num h CKB_SOURCE_GROUP_INPUT = Some input_group_num ->
  get_cell_num h CKB_SOURCE_GROUP_OUTPUT = Some output_group_num ->
  (output_group_num <> 1 -> main h = Some ERROR_GROUP_OUTPUT_INVALID) /\
  (input_group_num > 1 ->
   (main h = Some ERROR_GROUP_INPUT_INVALID <-> output_group_num = 1)).
Proof.
  intros Hs Hin Hout. rewrite main_script_loads, Hin, Hout by assumption.
  destruct (Z.eqb_spec output_group_num 1) as [Hone|Hone]; cbn [negb].
  - split; [contradiction|]. intros Hmany.
    destruct (Z.eqb_spec input_group_num 0); [lia|].
    destruct (Z.eqb_spec input_group_num 1); [lia|].
    cbn [negb andb]. tauto.
  - split; [reflexivity|]. intros _. split; [discriminate|contradiction].
Qed.

(** C7: on the Transfer path, once both capacities have loaded, the
    script returns the capacity error if and only if the capacity of the
    input cell, as an unsigned 64-bit number, is greater than that of the
    output cell; equal capacities pass.  (The values the script passes on
    from the host, and the codes of [common.h], are other codes.) *)
Theorem capacity_invalid_iff (h : Host) :
  fst (ckb_load_cell_by_field h 0 CKB_SOURCE_GROUP_INPUT) = CKB_SUCCESS ->
  fst (ckb_load_cell_by_field h 0 CKB_SOURCE_GROUP_OUTPUT) = CKB_SUCCESS ->
  capacity_code_reserved h ->
  verify_transfer h = ERROR_CAPACITY_INVALID <->
  u64 (snd (ckb_load_cell_by_field h 0 CKB_SOURCE_GROUP_INPUT))
  > u64 (snd (ckb_load_cell_by_field h 0 CKB_SOURCE_GROUP_OUTPUT)).
Proof.
  intros Hin Hout (Htx & Hinit & Hw & Hp & Hr & Hs). split.
  - intros Hret. pose proof (verify_transfer_returns h) as Hcase.
    rewrite Hret in Hcase.
    inversion Hcase as
      [E1 | ? E1 | | | | | | e Hacc Hm | l m e Hacc Hm Hrec
       | l m temp Hacc Hm Hrec E1]; try congruence; try assumption.
    + subst e. apply signing_message_codes in Hm.
      destruct Hm as [Hm|[Hm _]]; [|congruence].
      simpl in Hm.
      destruct Hm as [Hm|[Hm|[Hm|[Hm|[]]]]]; try discriminate Hm.
      congruence.
    + subst e. apply recover_pubkey_hash_codes in Hrec.
      destruct Hrec as [Hrec|[Hrec _]]; [|congruence].
      simpl in Hrec. destruct Hrec as [?|[?|[?|[]]]]; congruence.
    + destruct (match_validators_codes
                  (script_args (snd (ckb_load_script h))) temp) as [E|E];
        rewrite E in E1; discriminate E1.
  - unfold verify_transfer.
    destruct (ckb_load_cell_by_field h 0 CKB_SOURCE_GROUP_INPUT) as [r1 c1].
    destruct (ckb_load_cell_by_field h 0 CKB_SOURCE_GROUP_OUTPUT) as [r2 c2].
    cbn [fst snd] in *. subst r1 r2. cbn [Z.eqb CKB_SUCCESS negb].
    intros Hgt. destruct (Z.gtb_spec (u64 c1) (u64 c2)); [reflexivity|lia].
Qed.

(** The values [verify_transfer] can return. *)
Lemma verify_transfer_codes (h : Host) :
  In (verify_transfer h) (CKB_SUCCESS :: script_codes) \/
  In (verify_transfer h) (passed_on h).
Proof.
  destruct (verify_transfer_returns h) as
    [E1 | E1 E2 | | | | | | e Hacc Hm | l m e Hacc Hm Hrec
     | l m temp Hacc Hm Hrec]; try (left; simpl; tauto);
    try (right; simpl; tauto).
  - apply signing_message_codes in Hm.
    destruct Hm as [Hm|[-> _]]; [|right; simpl; tauto].
    left. simpl in *. tauto.
  - apply recover_pubkey_hash_codes in Hrec.
    destruct Hrec as [Hrec|[-> _]]; [|right; simpl; tauto].
    left. simpl in *. tauto.
  - destruct (match_validators_codes
                (script_args (snd (ckb_load_script h))) temp) as [E|E];
      rewrite E; left; simpl; tauto.
Qed.

(** C9 (amended): every run of the script ends in one of three ways.  It
    returns 0, and then it accepted: on the Init path, or on the Transfer
    path with the validator found.  Or it returns a nonzero status, which
    is one of the codes the script names (arguments-length, encoding,
    syscall, script-too-long, group-output, group-input, capacity,
    validator-signature, witness-size and the three curve failures) or
    the value a failed capacity load, a failed load of the transaction
    hash or a failed initialisation of secp256k1 returned, passed on
    unchanged.  Or, the script having loaded, the count of a group made
    the host store past the one-byte buffer of the counter, and the
    source does not determine a status. *)
Theorem main_returns (h : Host) :
  common_codes_nonzero ->
  match main h with
  | Some status =>
      (status = CKB_SUCCESS /\
       (get_cell_num h CKB_SOURCE_GROUP_INPUT = Some 0 \/
        validator_matched h))
      \/ (status <> CKB_SUCCESS /\
          (In status script_codes \/ In status (passed_on h)))
  | None =>
      script_loads h /\
      (get_cell_num h CKB_SOURCE_GROUP_INPUT = None \/
       get_cell_num h CKB_SOURCE_GROUP_OUTPUT = None)
  end.
Proof.
  intros Hcodes.
  destruct (script_loads_dec h) as [Hs|Hs].
  2: { destruct (main_script_fails h Hs) as [E|E]; rewrite E; right;
       (split; [discriminate|left; simpl; tauto]). }
  rewrite main_script_loads by assumption.
  destruct (get_cell_num h CKB_SOURCE_GROUP_INPUT) as [input_group_num|];
    [|split; [assumption|now left]].
  destruct (get_cell_num h CKB_SOURCE_GROUP_OUTPUT) as [output_group_num|];
    [|split; [assumption|now right]].
  destruct (Z.eqb_spec output_group_num 1);
    cbn [negb]; [|right; split; [discriminate|left; simpl; tauto]].
  destruct (Z.eqb_spec input_group_num 0) as [->|];
    cbn [negb andb]; [left; split; [reflexivity|now left]|].
  destruct (Z.eqb_spec input_group_num 1);
    cbn [negb]; [|right; split; [discriminate|left; simpl; tauto]].
  destruct (Z.eq_dec (verify_transfer h) CKB_SUCCESS) as [E|E].
  - left. split; [assumption|]. right.
    now apply verify_transfer_accepts in E.
  - right. split; [assumption|].
    destruct (verify_transfer_codes h) as [[E'|Hin]|Hin]; auto.
    symmetry in E'. contradiction.
Qed.

(** C10 (amended): when the args of the script are empty, no transaction
    on the Transfer path is accepted; one that passes the checks before
    the matcher (capacity, script, witnesses, recovery of the key) is
    rejected with the validator-signature error, whatever its signature. *)
Theorem empty_args_rejected (h : Host) :
  get_cell_num h CKB_SOURCE_GROUP_INPUT = Some 1 ->
  get_cell_num h CKB_SOURCE_GROUP_OUTPUT = Some 1 ->
  common_codes_nonzero ->
  script_args (snd (ckb_load_script h)) = [] ->
  (exists status, main h = Some status /\ status <> CKB_SUCCESS) /\
  (args_accepted h ->
   (exists lock_bytes message temp,
       signing_message h = inr (lock_bytes, message) /\
       recover_pubkey_hash h lock_bytes message = inr temp) ->
   main h = Some ERROR_VALIDATOR_SIGNATURE_INVALID).
Proof.
  intros Hin Hout Hcodes Hargs. split.
  - assert (Hno : main h <> Some CKB_SUCCESS).
    { intros Hret. apply main_accepts_transfer in Hret; try assumption.
      destruct Hret as [_ (l & m & temp & _ & _ & k & Hk & _)].
      rewrite Hargs in Hk. simpl in Hk. unfold BLAKE160_SIZE in Hk. lia. }
    destruct (script_loads_dec h) as [Hs|Hs].
    + exists (verify_transfer h). rewrite main_transfer in * by assumption.
      split; [reflexivity|]. intros E. apply Hno. now rewrite E.
    + destruct (main_script_fails h Hs) as [E|E]; rewrite E;
        eexists; (split; [reflexivity|discriminate]).
  - intros Hacc (l & m & temp & Hm & Hrec).
    rewrite main_transfer; try assumption; [|apply Hacc].
    rewrite (verify_transfer_matcher h l m temp), Hargs by assumption.
    reflexivity.
Qed.

End Rejection.

(** ** The signing message *)

Section Message.
Context `{Externals}.

(** C3: on the Transfer path the message is the blake2b hash of: the
    transaction hash (32 bytes); the length of witness 0 as eight
    little-endian bytes and witness 0 with the 65 bytes of its lock field
    zeroed; then, for the indices 1, 2, ... of the group of inputs up to
    the out-of-range signal, each witness after its eight-byte length;
    then the same for the indices [n], [n + 1], ... of the whole
    transaction, [n] being its number of inputs. *)
Theorem signing_message_bytes (h : Host) (w0 tx_hash : bytes)
  (lock_bytes_seg : mol_seg_t) :
  ckb_load_witness h 0 CKB_SOURCE_GROUP_INPUT = (CKB_SUCCESS, w0) ->
  Z.of_nat (length w0) <= MAX_WITNESS_SIZE ->
  extract_witness_lock w0 = (0, lock_bytes_seg) ->
  size lock_bytes_seg = SIGNATURE_SIZE ->
  (ptr lock_bytes_seg + 65 <= length w0)%nat ->
  ckb_load_tx_hash h = (CKB_SUCCESS, tx_hash) ->
  length tx_hash = 32%nat ->
  Forall loads_within_cap
    (until_out_of_bound (skipn 1 (witnesses h CKB_SOURCE_GROUP_INPUT))) ->
  Forall loads_within_cap
    (until_out_of_bound
       (skipn (calculate_inputs_len h) (witnesses h CKB_SOURCE_INPUT))) ->
  signing_message h
  = inr (firstn 65 (skipn (ptr lock_bytes_seg) w0),
         blake2b
           (tx_hash
            ++ (le64 (Z.of_nat (length w0))
                ++ firstn (ptr lock_bytes_seg) w0
                ++ repeat x00 65
                ++ skipn (ptr lock_bytes_seg + 65) w0)
            ++ witness_entries
                 (until_out_of_bound
                    (skipn 1 (witnesses h CKB_SOURCE_GROUP_INPUT)))
            ++ witness_entries
                 (until_out_of_bound
                    (skipn (calculate_inputs_len h)
                       (witnesses h CKB_SOURCE_INPUT))))).
Proof.
  intros Hw0 Hlen Hlock Hsize Hin Htx Htxlen Hgroup Hextra.
  unfold signing_message. rewrite Hw0, Hlock, Htx, Hsize, Htxlen.
  cbn [Z.eqb CKB_SUCCESS negb].
  destruct (Z.gtb_spec (Z.of_nat (length w0)) MAX_WITNESS_SIZE); [lia|].
  change (SIGNATURE_SIZE =? SIGNATURE_SIZE) with true.
  change (Z.of_nat 32 =? BLAKE2B_BLOCK_SIZE) with true. cbn [negb].
  rewrite hash_witnesses_answers, hash_answers_entries by assumption.
  rewrite hash_witnesses_answers, hash_answers_entries by assumption.
  unfold blake2b_final, blake2b_update, blake2b_init, memcpy.
  rewrite memset_inside by (unfold SIGNATURE_SIZE; simpl; lia).
  change (Z.to_nat SIGNATURE_SIZE) with 65%nat.
  cbn [app]. rewrite <- !app_assoc. reflexivity.
Qed.

(** C4: the message does not depend on the bytes of the lock field of
    witness 0.  Two transactions with the same transaction hash and the
    same witnesses, but for the 65 bytes of that field (which the reader
    finds at the same place in both), have the same message. *)
Theorem signing_message_masks_lock (h h' : Host) (r re : Z) (w lock' : bytes)
  (rest : list (Z * bytes)) (lock_bytes_seg : mol_seg_t) :
  witnesses h CKB_SOURCE_GROUP_INPUT = (r, w) :: rest ->
  witnesses h' CKB_SOURCE_GROUP_INPUT
  = (r, replace_lock w (ptr lock_bytes_seg) lock') :: rest ->
  calculate_inputs_len h' = calculate_inputs_len h ->
  skipn (calculate_inputs_len h) (witnesses h' CKB_SOURCE_INPUT)
  = skipn (calculate_inputs_len h) (witnesses h CKB_SOURCE_INPUT) ->
  ckb_load_tx_hash h' = ckb_load_tx_hash h ->
  extract_witness_lock w = (re, lock_bytes_seg) ->
  extract_witness_lock (replace_lock w (ptr lock_bytes_seg) lock')
  = (re, lock_bytes_seg) ->
  size lock_bytes_seg = SIGNATURE_SIZE ->
  length lock' = 65%nat ->
  (ptr lock_bytes_seg + 65 <= length w)%nat ->
  message_of (signing_message h') = message_of (signing_message h).
Proof.
  intros Hw Hw' Hn Hextra Htx Hseg Hseg' Hsize Hlock Hin.
  unfold signing_message, ckb_load_witness. rewrite Hw, Hw'. cbn [nth].
  rewrite replace_lock_length by lia.
  rewrite Hseg, Hseg', Htx, Hsize.
  replace SIGNATURE_SIZE with (Z.of_nat (length lock'))
    by (rewrite Hlock; reflexivity).
  rewrite memset_replace_lock by lia.
  destruct (negb (r =? CKB_SUCCESS)); [reflexivity|].
  destruct (Z.of_nat (length w) >? MAX_WITNESS_SIZE); [reflexivity|].
  destruct (negb (re =? 0)); [reflexivity|].
  destruct (negb (Z.of_nat (length lock') =? Z.of_nat (length lock')));
    [reflexivity|].
  destruct (ckb_load_tx_hash h) as [r' tx_hash].
  destruct (negb (r' =? CKB_SUCCESS)); [reflexivity|].
  destruct (negb (Z.of_nat (length tx_hash) =? BLAKE2B_BLOCK_SIZE));
    [reflexivity|].
  rewrite !(hash_witnesses_answers _ CKB_SOURCE_GROUP_INPUT), Hw, Hw'.
  cbn [skipn].
  match goal with
  | |- context [hash_answers rest ?c] =>
      destruct (hash_answers rest c) as [e|ctx]
  end; [reflexivity|].
  cbn zeta. rewrite !hash_witnesses_answers, Hn, Hextra.
  match goal with
  | |- context [hash_answers ?l ?c] =>
      destruct (hash_answers l c) as [e|ctx']
  end; reflexivity.
Qed.

End Message.

(** ** The count of the cells of a group *)

(** C8 (the code breaks the claim): [get_cell_num] counts every answer
    that is not the out-of-range signal, without testing it for success as
    the witness loops do.  A host that answers the one query for the data
    of an output cell with the error status 2 makes it return 1, with no
    successful query in its log, and the script accepts the transaction.
    And as [len] is set once, before the loop, the query for a second
    cell offers the one-byte buffer with the data length of the first: two
    cells with two bytes of data each make the host store past it. *)
Theorem get_cell_num_counts_failed_query :
  get_cell_num_log (Sample.init_with_cell 2 []) CKB_SOURCE_GROUP_OUTPUT
  = Some (1%nat, [2; CKB_INDEX_OUT_OF_BOUND]) /\
  get_cell_num (Sample.init_with_cell 2 []) CKB_SOURCE_GROUP_OUTPUT
  = Some 1 /\
  count_occ Z.eq_dec [2; CKB_INDEX_OUT_OF_BOUND] CKB_SUCCESS = 0%nat /\
  @main Sample.externals (Sample.init_with_cell 2 []) = Some CKB_SUCCESS /\
  get_cell_num (Sample.init_two_cells [x01; x02] [x03; x04])
    CKB_SOURCE_GROUP_OUTPUT = None.
Proof. repeat split. Qed.

(** * The theorems on the sample transactions *)

#[local] Existing Instance Sample.externals.

(** The end-to-end example of the specification: args of two hashes, the
    signature recovering to the second; equal capacities are accepted, a
    smaller output capacity and an unlisted signer are rejected. *)
Example transfer_example_accepted :
  main Sample.transfer = Some CKB_SUCCESS.
Proof. reflexivity. Qed.

Example transfer_example_capacity :
  main (Sample.tx 1 1 1000 999 (Sample.H1 ++ Sample.H2) Sample.signed)
  = Some ERROR_CAPACITY_INVALID.
Proof. reflexivity. Qed.

Example transfer_example_unlisted :
  main (Sample.tx 1 1 1000 1000 (Sample.H1 ++ Sample.H1) Sample.signed)
  = Some ERROR_VALIDATOR_SIGNATURE_INVALID.
Proof. reflexivity. Qed.

Lemma sample_codes_nonzero : common_codes_nonzero.
Proof. repeat split; discriminate. Defined.

Lemma transfer_accepted_iff_witness :
  main Sample.transfer = Some CKB_SUCCESS <->
  transfer_conditions Sample.transfer /\ args_accepted Sample.transfer.
Proof.
  apply (transfer_accepted_iff Sample.transfer);
    [reflexivity | reflexivity | exact sample_codes_nonzero].
Defined.

Lemma init_accepted_witness :
  main (Sample.tx 0 1 0 1000 (Sample.H1 ++ Sample.H2) [])
  = Some CKB_SUCCESS.
Proof.
  apply init_accepted; [reflexivity | reflexivity |].
  split; [reflexivity | vm_compute; discriminate].
Defined.

Lemma signing_message_bytes_witness :
  signing_message Sample.transfer_more
  = inr (Sample.signed,
         blake2b
           (repeat x07 32
            ++ (le64 85
                ++ firstn 20 (Sample.witness_with Sample.signed)
                ++ repeat x00 65
                ++ skipn 85 (Sample.witness_with Sample.signed))
            ++ witness_entries [(CKB_SUCCESS, [x0a; x0b])]
            ++ witness_entries [(CKB_SUCCESS, [x0c])])).
Proof.
  apply (signing_message_bytes Sample.transfer_more
           (Sample.witness_with Sample.signed) (repeat x07 32)
           {| ptr := 20; size := 65 |}).
  - reflexivity.
  - vm_compute. discriminate.
  - reflexivity.
  - reflexivity.
  - vm_compute. lia.
  - reflexivity.
  - reflexivity.
  - repeat constructor. vm_compute. discriminate.
  - repeat constructor. vm_compute. discriminate.
Defined.

Lemma signing_message_masks_lock_witness :
  message_of
    (signing_message
       (Sample.tx 1 1 1000 1000 (Sample.H1 ++ Sample.H2) (repeat x05 65)))
  = message_of (signing_message Sample.transfer).
Proof.
  apply (signing_message_masks_lock Sample.transfer
           (Sample.tx 1 1 1000 1000 (Sample.H1 ++ Sample.H2) (repeat x05 65))
           CKB_SUCCESS 0 (Sample.witness_with Sample.signed) (repeat x05 65)
           [] {| ptr := 20; size := 65 |});
    reflexivity.
Defined.

Lemma args_length_rejected_witness :
  main (Sample.tx 1 1 1000 1000 (Sample.H2 ++ [x00]) Sample.signed)
  = Some ERROR_ARGUMENTS_LEN.
Proof.
  apply args_length_rejected; try reflexivity.
  - split; [reflexivity | vm_compute; discriminate].
  - repeat split; vm_compute; discriminate.
  - vm_compute. discriminate.
Defined.

Lemma group_counts_rejected_witness :
  ((2 : Z) <> 1 ->
   main (Sample.tx 2 2 1000 1000 Sample.H2 Sample.signed)
   = Some ERROR_GROUP_OUTPUT_INVALID) /\
  ((2 : Z) > 1 ->
   (main (Sample.tx 2 2 1000 1000 Sample.H2 Sample.signed)
    = Some ERROR_GROUP_INPUT_INVALID <-> (2 : Z) = 1)).
Proof.
  apply (group_counts_rejected
           (Sample.tx 2 2 1000 1000 Sample.H2 Sample.signed) 2 2);
    [|reflexivity|reflexivity].
  split; [reflexivity | vm_compute; discriminate].
Defined.

Lemma capacity_invalid_iff_witness :
  verify_transfer
    (Sample.tx 1 1 1000 999 (Sample.H1 ++ Sample.H2) Sample.signed)
  = ERROR_CAPACITY_INVALID <-> u64 1000 > u64 999.
Proof.
  apply (capacity_invalid_iff
           (Sample.tx 1 1 1000 999 (Sample.H1 ++ Sample.H2) Sample.signed));
    [reflexivity | reflexivity |].
  repeat split; vm_compute; discriminate.
Defined.

Lemma main_returns_witness :
  match main Sample.transfer with
  | Some status =>
      (status = CKB_SUCCESS /\
       (get_cell_num Sample.transfer CKB_SOURCE_GROUP_INPUT = Some 0 \/
        validator_matched Sample.transfer))
      \/ (status <> CKB_SUCCESS /\
          (In status script_codes \/
           In status (passed_on Sample.transfer)))
  | None =>
      script_loads Sample.transfer /\
      (get_cell_num Sample.transfer CKB_SOURCE_GROUP_INPUT = None \/
       get_cell_num Sample.transfer CKB_SOURCE_GROUP_OUTPUT = None)
  end.
Proof. apply main_returns. exact sample_codes_nonzero. Defined.

Lemma empty_args_rejected_witness :
  let h := Sample.tx 1 1 1000 1000 [] Sample.signed in
  (exists status, main h = Some status /\ status <> CKB_SUCCESS) /\
  (args_accepted h ->
   (exists lock_bytes message temp,
       signing_message h = inr (lock_bytes, message) /\
       recover_pubkey_hash h lock_bytes message = inr temp) ->
   main h = Some ERROR_VALIDATOR_SIGNATURE_INVALID).
Proof.
  apply (empty_args_rejected (Sample.tx 1 1 1000 1000 [] Sample.signed));
    [reflexivity | reflexivity | exact sample_codes_nonzero | reflexivity].
Defined.

(** * Where the claims fail *)

(** C1, as stated: the three conditions hold for a transaction whose args
    are the short hash of the signer and one more byte, yet the script
    rejects it (arguments-length error). *)
Lemma transfer_conditions_not_sufficient :
  let h := Sample.tx 1 1 1000 1000 (Sample.H2 ++ [x00]) Sample.signed in
  get_cell_num h CKB_SOURCE_GROUP_INPUT = Some 1 /\
  get_cell_num h CKB_SOURCE_GROUP_OUTPUT = Some 1 /\
  transfer_conditions h /\
  main h = Some ERROR_ARGUMENTS_LEN /\
  ~ (main h = Some CKB_SUCCESS <-> transfer_conditions h).
Proof.
  intros h.
  assert (Hcond : transfer_conditions h).
  { split; [vm_compute; discriminate|]. split; [reflexivity|].
    eexists _, _, _. split; [vm_compute; reflexivity|].
    split; [vm_compute; reflexivity|].
    exists 0%nat. split; [vm_compute; lia | reflexivity]. }
  split; [reflexivity|]. split; [reflexivity|]. split; [exact Hcond|].
  split; [reflexivity|].
  intros [_ Hback]. specialize (Hback Hcond). discriminate Hback.
Qed.

(** C2, as stated: no cell in the group of inputs, two in the group of
    outputs: rejected with the group-output error. *)
Lemma init_two_outputs_rejected :
  let h := Sample.tx 0 2 0 1000 (Sample.H1 ++ Sample.H2) [] in
  get_cell_num h CKB_SOURCE_GROUP_INPUT = Some 0 /\
  main h = Some ERROR_GROUP_OUTPUT_INVALID /\
  main h <> Some CKB_SUCCESS.
Proof. repeat split. discriminate. Qed.

(** C5, as stated: args of one byte are accepted on the Init path, and on
    the Transfer path the capacity error comes first. *)
Lemma args_length_not_independent :
  let init := Sample.tx 0 1 0 1000 [x01] [] in
  let transfer := Sample.tx 1 1 1000 999 [x01] Sample.signed in
  Z.of_nat (length (script_args (snd (ckb_load_script init))))
    mod Z.of_nat BLAKE160_SIZE <> 0 /\
  main init = Some CKB_SUCCESS /\
  Z.of_nat (length (script_args (snd (ckb_load_script transfer))))
    mod Z.of_nat BLAKE160_SIZE <> 0 /\
  main transfer = Some ERROR_CAPACITY_INVALID.
Proof. repeat split; vm_compute; discriminate. Qed.

(** C6, as stated: two cells in the group of outputs and a script of 32769
    bytes: rejected with the script-too-long error, not the group-output
    error. *)
Lemma long_script_rejected_first :
  get_cell_num Sample.long_script_two_outputs CKB_SOURCE_GROUP_OUTPUT
  = Some 2 /\
  Z.of_nat (length (snd (ckb_load_script Sample.long_script_two_outputs)))
  = 32769 /\
  main Sample.long_script_two_outputs = Some ERROR_SCRIPT_TOO_LONG /\
  main Sample.long_script_two_outputs <> Some ERROR_GROUP_OUTPUT_INVALID.
Proof.
  repeat split; try (vm_compute; reflexivity). vm_compute. discriminate.
Qed.

(** C9, as stated: two failure causes share a code (args of 21 bytes;
    args of 20 bytes but a lock field of 64 bytes), and a failed
    initialisation of secp256k1 makes the script return the value it got,
    here the positive out-of-range status of the host, which is none of
    the script's codes. *)
Lemma codes_shared_and_passed_on :
  let bad_args :=
    Sample.tx 1 1 1000 1000 (Sample.H2 ++ [x00]) Sample.signed in
  let bad_lock :=
    Sample.tx 1 1 1000 1000 Sample.H2 (firstn 64 Sample.signed) in
  (Z.of_nat (length (script_args (snd (ckb_load_script bad_args))))
     mod Z.of_nat BLAKE160_SIZE <> 0 /\
   main bad_args = Some ERROR_ARGUMENTS_LEN) /\
  (Z.of_nat (length (script_args (snd (ckb_load_script bad_lock))))
     mod Z.of_nat BLAKE160_SIZE = 0 /\
   size (snd (extract_witness_lock
                (snd (ckb_load_witness bad_lock 0 CKB_SOURCE_GROUP_INPUT))))
   = 64 /\
   main bad_lock = Some ERROR_ARGUMENTS_LEN) /\
  (main Sample.transfer_no_secp_data
   = Some
       (ckb_secp256k1_custom_verify_only_initialize
          Sample.transfer_no_secp_data)
   /\ main Sample.transfer_no_secp_data = Some 1
   /\ ~ In 1 script_codes).
Proof.
  repeat split; try (vm_compute; reflexivity); try (vm_compute; discriminate).
  vm_compute. intuition discriminate.
Qed.

(** C10, as stated: empty args on the Transfer path, with an input
    capacity above the output capacity: rejected with the capacity error,
    not the validator-signature error. *)
Lemma empty_args_capacity_error :
  let h := Sample.tx 1 1 1000 999 [] Sample.signed in
  script_args (snd (ckb_load_script h)) = [] /\
  get_cell_num h CKB_SOURCE_GROUP_INPUT = Some 1 /\
  get_cell_num h CKB_SOURCE_GROUP_OUTPUT = Some 1 /\
  main h = Some ERROR_CAPACITY_INVALID /\
  main h <> Some ERROR_VALIDATOR_SIGNATURE_INVALID.
Proof. repeat split. vm_compute. discriminate. Qed.

(** * More properties of the script *)

(** ** [get_cell_num] *)

Lemma statuses_before_out_of_bound_length (answers : list Z) :
  (length (statuses_before_out_of_bound answers) <= length answers)%nat.
Proof.
  induction answers as [|ret rest IH]; simpl; [lia|].
  destruct (ret =? CKB_INDEX_OUT_OF_BOUND); simpl; lia.
Qed.

Lemma small_data_fits (answers : list (Z * bytes)) :
  forall len : Z,
    Forall (fun a => (length (snd a) <= 1)%nat) answers ->
    stores_past_buffer answers len = false.
Proof.
  induction answers as [|[ret data] rest IH]; intros len Hall;
    [reflexivity|].
  inversion Hall as [|? ? Hdata Hrest]; subst. simpl in Hdata.
  cbn [stores_past_buffer].
  destruct (ret =? CKB_INDEX_OUT_OF_BOUND); [reflexivity|].
  destruct (ret =? CKB_SUCCESS); [|now apply IH].
  rewrite IH by assumption.
  destruct (Z.gtb_spec (Z.min len (Z.of_nat (length data))) 1);
    [lia|reflexivity].
Qed.

(** X1: [get_cell_num] either makes the host store past its one-byte
    buffer, or returns the number of answers before the first
    out-of-range one, an answer with an error status counting as a cell.
    It stores past the buffer when a success before the first out-of-range
    answer carries more than one byte of data and so did the success
    before it; it never does when every cell has at most one byte of
    data.  What it returns is between 0 and the number of answers of the
    host. *)
Theorem get_cell_num_before_out_of_bound (h : Host) (src : source) :
  get_cell_num h src
  = (if stores_past_buffer (cell_data h src) 1 then None
     else Some (Z.of_nat
                  (length (statuses_before_out_of_bound
                             (map fst (cell_data h src)))))) /\
  (Forall (fun a => (length (snd a) <= 1)%nat) (cell_data h src) ->
   get_cell_num h src <> None) /\
  (forall n, get_cell_num h src = Some n ->
             0 <= n <= Z.of_nat (length (cell_data h src))).
Proof.
  assert (E : get_cell_num h src
              = if stores_past_buffer (cell_data h src) 1 then None
                else Some (Z.of_nat
                             (length (statuses_before_out_of_bound
                                        (map fst (cell_data h src)))))).
  { unfold get_cell_num, get_cell_num_log.
    rewrite get_cell_num_loop_answers by lia. cbn [skipn].
    destruct (stores_past_buffer (cell_data h src) 1); reflexivity. }
  split; [exact E|]. rewrite E. split.
  - intros Hsmall. now rewrite small_data_fits.
  - intros n.
    pose proof (statuses_before_out_of_bound_length
                  (map fst (cell_data h src))) as Hlen.
    rewrite length_map in Hlen.
    destruct (stores_past_buffer (cell_data h src) 1); [discriminate|].
    intros [= <-]. lia.
Qed.

(** ** The scan of the validators *)

Section Matcher.
Context `{Externals}.

Lemma match_validators_eq (args args' temp temp' : bytes) :
  (chunk_matches args temp <-> chunk_matches args' temp') ->
  match_validators args temp = match_validators args' temp'.
Proof.
  intros Hiff.
  destruct (match_validators_codes args temp) as [E|E];
    destruct (match_validators_codes args' temp') as [E'|E'];
    try congruence.
  - apply match_validators_accepts, Hiff, match_validators_accepts in E.
    rewrite E in E'. discriminate E'.
  - apply match_validators_accepts, Hiff, match_validators_accepts in E'.
    rewrite E' in E. discriminate E.
Qed.

(** X2: the scan returns 0 when some aligned 20-byte chunk of the args
    equals the first 20 bytes of the hash, and the validator-signature
    error otherwise; it returns nothing else.  A match at an offset that
    is not a multiple of 20 does not count. *)
Theorem match_validators_exact (args temp : bytes) :
  (match_validators args temp = CKB_SUCCESS /\ chunk_matches args temp) \/
  (match_validators args temp = ERROR_VALIDATOR_SIGNATURE_INVALID /\
   ~ chunk_matches args temp).
Proof.
  destruct (match_validators_codes args temp) as [E|E].
  - left. split; [exact E|]. now apply match_validators_accepts.
  - right. split; [exact E|]. intros Hc.
    apply match_validators_accepts in Hc. rewrite Hc in E. discriminate E.
Qed.

(** X3: the scan reads the first 20 bytes of the hash only: two hashes
    with the same first 20 bytes get the same answer. *)
Theorem match_validators_short_hash (args temp temp' : bytes) :
  firstn BLAKE160_SIZE temp = firstn BLAKE160_SIZE temp' ->
  match_validators args temp = match_validators args temp'.
Proof.
  intros Hshort. apply match_validators_eq. unfold chunk_matches.
  now rewrite Hshort.
Qed.

Lemma chunk_in_prefix (a b : bytes) (k : nat) :
  (BLAKE160_SIZE * k + BLAKE160_SIZE <= length a)%nat ->
  firstn BLAKE160_SIZE (skipn (BLAKE160_SIZE * k) (a ++ b))
  = firstn BLAKE160_SIZE (skipn (BLAKE160_SIZE * k) a).
Proof.
  unfold BLAKE160_SIZE. intros Hin.
  rewrite skipn_app, firstn_app, length_skipn.
  replace (20 - (length a - 20 * k))%nat with 0%nat by lia.
  now rewrite firstn_O, app_nil_r.
Qed.

Lemma chunk_in_suffix (a b : bytes) (m k : nat) :
  length a = (BLAKE160_SIZE * m)%nat ->
  skipn (BLAKE160_SIZE * (m + k)) (a ++ b) = skipn (BLAKE160_SIZE * k) b.
Proof.
  unfold BLAKE160_SIZE. intros Hlen.
  rewrite skipn_app, skipn_all2 by lia. simpl. f_equal. lia.
Qed.

(** X4: validator sets compose: when the first list is a whole number of
    20-byte hashes, the scan of two lists one after the other accepts
    exactly when the scan of one of them does. *)
Theorem match_validators_app (a b temp : bytes) (m : nat) :
  length a = (BLAKE160_SIZE * m)%nat ->
  match_validators (a ++ b) temp = CKB_SUCCESS <->
  match_validators a temp = CKB_SUCCESS \/
  match_validators b temp = CKB_SUCCESS.
Proof.
  intros Hlen. rewrite !match_validators_accepts. unfold chunk_matches.
  split.
  - intros (k & Hin & Heq). rewrite length_app in Hin.
    destruct (Nat.lt_ge_cases k m) as [Hk|Hk].
    + left. exists k.
      assert (Hina : (BLAKE160_SIZE * k + BLAKE160_SIZE <= length a)%nat)
        by (unfold BLAKE160_SIZE in *; lia).
      split; [exact Hina|]. now rewrite <- (chunk_in_prefix a b).
    + right. exists (k - m)%nat.
      replace k with (m + (k - m))%nat in Heq by lia.
      rewrite (chunk_in_suffix a b m) in Heq by assumption.
      split; [unfold BLAKE160_SIZE in *; lia | exact Heq].
  - intros [(k & Hin & Heq)|(k & Hin & Heq)].
    + exists k. rewrite length_app. split; [lia|].
      now rewrite chunk_in_prefix.
    + exists (m + k)%nat. rewrite length_app.
      split; [unfold BLAKE160_SIZE in *; lia|].
      now rewrite (chunk_in_suffix a b m).
Qed.

(** X5: bytes of the args after the last whole 20-byte chunk are never
    compared: they do not change the answer of the scan. *)
Theorem match_validators_partial_chunk (args tail temp : bytes) (m : nat) :
  length args = (BLAKE160_SIZE * m)%nat ->
  (length tail < BLAKE160_SIZE)%nat ->
  match_validators (args ++ tail) temp = match_validators args temp.
Proof.
  intros Hlen Htail. apply match_validators_eq. unfold chunk_matches.
  split.
  - intros (k & Hin & Heq). rewrite length_app in Hin.
    assert (Hina : (BLAKE160_SIZE * k + BLAKE160_SIZE <= length args)%nat)
      by (unfold BLAKE160_SIZE in *; lia).
    exists k. split; [exact Hina|]. now rewrite <- (chunk_in_prefix args tail).
  - intros (k & Hin & Heq). exists k. rewrite length_app. split; [lia|].
    now rewrite chunk_in_prefix.
Qed.

End Matcher.

(** ** The witness loops *)

Lemma app_same_length_inv {A : Type} (a1 a2 b1 b2 : list A) :
  length a1 = length a2 -> a1 ++ b1 = a2 ++ b2 -> a1 = a2 /\ b1 = b2.
Proof.
  revert a2; induction a1 as [|x a1 IH]; intros [|y a2]; simpl;
    try discriminate.
  - auto.
  - intros [= Hlen] [= -> Happ]. destruct (IH a2 Hlen Happ) as [-> ->].
    auto.
Qed.

Lemma le64_inj (n m : Z) :
  0 <= n < 2 ^ 64 -> 0 <= m < 2 ^ 64 -> le64 n = le64 m -> n = m.
Proof.
  intros Hn Hm E. apply (f_equal le_decode) in E. unfold le64 in E.
  rewrite !le_decode_shifts, !Z.shiftr_0_r in E.
  change (2 ^ (8 * Z.of_nat 8)) with (2 ^ 64) in E.
  now rewrite !Z.mod_small in E by assumption.
Qed.

Lemma witness_entries_cons (r : Z) (w : bytes) (l : list (Z * bytes)) :
  witness_entries ((r, w) :: l)
  = le64 (Z.of_nat (length w)) ++ w ++ witness_entries l.
Proof.
  unfold witness_entries, witness_entry. cbn [map concat snd].
  now rewrite <- app_assoc.
Qed.

Lemma witness_entries_inj (l1 l2 : list (Z * bytes)) :
  Forall loads_within_cap l1 -> Forall loads_within_cap l2 ->
  witness_entries l1 = witness_entries l2 -> map snd l1 = map snd l2.
Proof.
  revert l2; induction l1 as [|[r1 w1] l1 IH]; intros [|[r2 w2] l2] H1 H2;
    rewrite ?witness_entries_cons; try reflexivity;
    try (intros E; apply (f_equal (@length byte)) in E;
         rewrite length_app in E; simpl in E; discriminate).
  inversion H1 as [|? ? [_ Hw1] H1']; inversion H2 as [|? ? [_ Hw2] H2'];
    subst. simpl in Hw1, Hw2. intros E.
  apply app_same_length_inv in E; [|reflexivity].
  destruct E as [Elen E].
  apply le64_inj in Elen; try (unfold MAX_WITNESS_SIZE in *; lia).
  apply app_same_length_inv in E; [|lia].
  destruct E as [-> E]. cbn [map snd]. f_equal. now apply IH.
Qed.

Section WitnessLoops.
Context `{Externals}.

Lemma hash_answers_app (pre rest : list (Z * bytes)) :
  forall ctx : blake2b_state,
    Forall loads_within_cap pre ->
    hash_answers (pre ++ rest) ctx
    = hash_answers rest (ctx ++ witness_entries pre).
Proof.
  induction pre as [|[ret temp] pre IH]; intros ctx Hpre; simpl.
  - now rewrite app_nil_r.
  - inversion Hpre as [|? ? [Hret Hlen] Hpre']; subst. simpl in Hret, Hlen.
    rewrite Hret. simpl.
    destruct (Z.gtb_spec (Z.of_nat (length temp)) MAX_WITNESS_SIZE);
      [lia|].
    rewrite IH by assumption. unfold blake2b_update, witness_entries.
    simpl. unfold witness_entry. now rewrite <- !app_assoc.
Qed.

Lemma hash_answers_built (answers : list (Z * bytes)) :
  forall ctx c : blake2b_state,
    hash_answers answers ctx = inr c ->
    Forall loads_within_cap (until_out_of_bound answers).
Proof.
  induction answers as [|[ret temp] rest IH]; intros ctx c; simpl;
    [constructor|].
  destruct (ret =? CKB_INDEX_OUT_OF_BOUND); [constructor|].
  destruct (Z.eqb_spec ret CKB_SUCCESS); cbn [negb]; [|discriminate].
  destruct (Z.gtb_spec (Z.of_nat (length temp)) MAX_WITNESS_SIZE);
    [discriminate|].
  intros Hrest. constructor; [split; simpl; [assumption|lia]|].
  eapply IH. exact Hrest.
Qed.

(** X6: a witness loop stops at the first answer that is not a success
    within the 32 KiB cap.  If that answer is out of range, the loop ends
    with the witnesses before it fed in order, and the answers after it
    are not read; if it is another status, the script returns the syscall
    error; if it is a witness over the cap, the witness-size error. *)
Theorem hash_witnesses_first_stop (h : Host) (src : source) (i : nat)
  (ctx : blake2b_state) (pre post : list (Z * bytes)) (ret : Z) (w : bytes) :
  skipn i (witnesses h src) = pre ++ (ret, w) :: post ->
  Forall loads_within_cap pre ->
  (ret = CKB_INDEX_OUT_OF_BOUND ->
   hash_witnesses h src i ctx = inr (ctx ++ witness_entries pre)) /\
  (ret <> CKB_INDEX_OUT_OF_BOUND -> ret <> CKB_SUCCESS ->
   hash_witnesses h src i ctx = inl ERROR_SYSCALL) /\
  (ret = CKB_SUCCESS -> Z.of_nat (length w) > MAX_WITNESS_SIZE ->
   hash_witnesses h src i ctx = inl ERROR_WITNESS_SIZE).
Proof.
  intros Hskip Hpre.
  rewrite hash_witnesses_answers, Hskip, hash_answers_app by assumption.
  cbn [hash_answers]. repeat split.
  - intros ->. reflexivity.
  - intros Hoob Hsucc.
    destruct (Z.eqb_spec ret CKB_INDEX_OUT_OF_BOUND); [contradiction|].
    destruct (Z.eqb_spec ret CKB_SUCCESS); [contradiction|]. reflexivity.
  - intros -> Hlen. cbn [Z.eqb CKB_SUCCESS CKB_INDEX_OUT_OF_BOUND negb].
    destruct (Z.gtb_spec (Z.of_nat (length w)) MAX_WITNESS_SIZE);
      [reflexivity|lia].
Qed.

(** X7: the bytes a witness loop feeds determine the witnesses: two runs
    that start from the same hash state and end in the same hash state
    enumerated the same witnesses, in the same order.  The length before
    each witness is what makes the concatenation unambiguous. *)
Theorem hash_witnesses_unambiguous (h1 h2 : Host) (src1 src2 : source)
  (i1 i2 : nat) (ctx c : blake2b_state) :
  hash_witnesses h1 src1 i1 ctx = inr c ->
  hash_witnesses h2 src2 i2 ctx = inr c ->
  map snd (until_out_of_bound (skipn i1 (witnesses h1 src1)))
  = map snd (until_out_of_bound (skipn i2 (witnesses h2 src2))).
Proof.
  rewrite !hash_witnesses_answers. intros E1 E2.
  pose proof (hash_answers_built _ _ _ E1) as Hcap1.
  pose proof (hash_answers_built _ _ _ E2) as Hcap2.
  rewrite hash_answers_entries in E1, E2 by assumption.
  injection E1 as E1. injection E2 as E2. rewrite <- E2 in E1.
  apply app_inv_head in E1. now apply witness_entries_inj.
Qed.

(** X8: a message is built only when every load the builder makes
    succeeds within its bound: witness 0 loads within the 32 KiB cap and
    decodes with a lock field of 65 bytes, the transaction hash loads with
    32 bytes, and every witness enumerated by the two loops loads within
    the cap.  The signature returned is the lock field as it was in
    witness 0. *)
Theorem signing_message_built_only_if (h : Host) (lock_bytes message : bytes) :
  signing_message h = inr (lock_bytes, message) ->
  let w0 := snd (ckb_load_witness h 0 CKB_SOURCE_GROUP_INPUT) in
  let lock_bytes_seg := snd (extract_witness_lock w0) in
  loads_within_cap (ckb_load_witness h 0 CKB_SOURCE_GROUP_INPUT) /\
  fst (extract_witness_lock w0) = 0 /\
  size lock_bytes_seg = SIGNATURE_SIZE /\
  lock_bytes = firstn 65 (skipn (ptr lock_bytes_seg) w0) /\
  fst (ckb_load_tx_hash h) = CKB_SUCCESS /\
  length (snd (ckb_load_tx_hash h)) = 32%nat /\
  Forall loads_within_cap
    (until_out_of_bound (skipn 1 (witnesses h CKB_SOURCE_GROUP_INPUT))) /\
  Forall loads_within_cap
    (until_out_of_bound
       (skipn (calculate_inputs_len h) (witnesses h CKB_SOURCE_INPUT))).
Proof.
  unfold signing_message, loads_within_cap.
  destruct (ckb_load_witness h 0 CKB_SOURCE_GROUP_INPUT) as [r temp].
  cbn [fst snd].
  destruct (Z.eqb_spec r CKB_SUCCESS); cbn [negb]; [|discriminate].
  destruct (Z.gtb_spec (Z.of_nat (length temp)) MAX_WITNESS_SIZE);
    [discriminate|].
  destruct (extract_witness_lock temp) as [r' seg]. cbn [fst snd].
  destruct (Z.eqb_spec r' 0); cbn [negb]; [|discriminate].
  destruct (Z.eqb_spec (size seg) SIGNATURE_SIZE) as [Hsize|];
    cbn [negb]; [|discriminate].
  destruct (ckb_load_tx_hash h) as [r'' tx_hash]. cbn [fst snd].
  destruct (Z.eqb_spec r'' CKB_SUCCESS); cbn [negb]; [|discriminate].
  destruct (Z.eqb_spec (Z.of_nat (length tx_hash)) BLAKE2B_BLOCK_SIZE)
    as [Htx|]; cbn [negb]; [|discriminate].
  rewrite hash_witnesses_answers.
  match goal with
  | |- context [hash_answers ?l ?c] =>
      destruct (hash_answers l c) as [eg|ctxg] eqn:Hgroup
  end; [discriminate|].
  cbn zeta. rewrite hash_witnesses_answers.
  match goal with
  | |- context [hash_answers ?l ?c] =>
      destruct (hash_answers l c) as [ex|ctxx] eqn:Hextra
  end; [discriminate|].
  intros [= <- _]. unfold memcpy. rewrite Hsize.
  change (Z.to_nat SIGNATURE_SIZE) with 65%nat.
  unfold BLAKE2B_BLOCK_SIZE in Htx.
  repeat split; auto; try lia.
  - eapply hash_answers_built. exact Hgroup.
  - eapply hash_answers_built. exact Hextra.
Qed.

End WitnessLoops.

(** ** What the script reads *)

Lemma get_cell_num_loop_ext (h h' : Host) (src : source) :
  cell_data h' = cell_data h ->
  forall (fuel i : nat) (len : Z) (log : list Z),
    get_cell_num_loop h' src fuel i len log
    = get_cell_num_loop h src fuel i len log.
Proof.
  intros Hcells. induction fuel as [|fuel IH]; intros i len log;
    [reflexivity|].
  cbn [get_cell_num_loop]. unfold ckb_load_cell_data. rewrite Hcells.
  destruct (nth i (cell_data h src) _) as [ret data].
  destruct (ret =? CKB_SUCCESS);
    [destruct (Z.min len (Z.of_nat (length data)) >? 1)|];
    try reflexivity; now rewrite !IH.
Qed.

Section Reads.
Context `{Externals}.

Lemma signing_message_ext (h h' : Host) :
  witnesses h' CKB_SOURCE_GROUP_INPUT = witnesses h CKB_SOURCE_GROUP_INPUT ->
  tx_hash_of h' = tx_hash_of h ->
  inputs_len h' = inputs_len h ->
  skipn (inputs_len h) (witnesses h' CKB_SOURCE_INPUT)
  = skipn (inputs_len h) (witnesses h CKB_SOURCE_INPUT) ->
  signing_message h' = signing_message h.
Proof.
  intros Hgroup Htx Hn Hextra.
  unfold signing_message, ckb_load_witness, ckb_load_tx_hash,
    calculate_inputs_len.
  rewrite Hgroup, Htx, Hn.
  destruct (nth 0 (witnesses h CKB_SOURCE_GROUP_INPUT) _) as [r temp].
  destruct (negb (r =? CKB_SUCCESS)); [reflexivity|].
  destruct (Z.of_nat (length temp) >? MAX_WITNESS_SIZE); [reflexivity|].
  destruct (extract_witness_lock temp) as [r' seg].
  destruct (negb (r' =? 0)); [reflexivity|].
  destruct (negb (size seg =? SIGNATURE_SIZE)); [reflexivity|].
  destruct (tx_hash_of h) as [r'' tx_hash].
  destruct (negb (r'' =? CKB_SUCCESS)); [reflexivity|].
  destruct (negb (Z.of_nat (length tx_hash) =? BLAKE2B_BLOCK_SIZE));
    [reflexivity|].
  rewrite !(hash_witnesses_answers _ CKB_SOURCE_GROUP_INPUT), Hgroup.
  match goal with
  | |- context [hash_answers ?l ?c] => destruct (hash_answers l c)
  end; [reflexivity|].
  now rewrite !hash_witnesses_answers, Hextra.
Qed.

(** X9: the script does not guard the witnesses of the inputs outside its
    group: of the whole-transaction source it reads only the witnesses at
    the indices from the number of inputs on.  Two transactions that
    differ in the other witnesses of that source only get the same
    answer. *)
Theorem main_ignores_unguarded_witnesses (h h' : Host) :
  same_but_unguarded_witnesses h h' -> main h' = main h.
Proof.
  intros (Hscript & Hcells & Hcap & Htx & Hn & Hinit & Hgroup & Hextra).
  assert (Hnum : forall src, get_cell_num h' src = get_cell_num h src).
  { intros src. unfold get_cell_num, get_cell_num_log.
    rewrite (get_cell_num_loop_ext h h' src Hcells), Hcells. reflexivity. }
  assert (Hmsg : signing_message h' = signing_message h)
    by now apply signing_message_ext.
  assert (Hrec : forall l m,
             recover_pubkey_hash h' l m = recover_pubkey_hash h l m).
  { intros l m. unfold recover_pubkey_hash,
      ckb_secp256k1_custom_verify_only_initialize. now rewrite Hinit. }
  unfold main, verify_transfer, ckb_load_script, ckb_load_cell_by_field.
  rewrite !Hnum, Hscript, Hcap, Hmsg.
  destruct (script_of h) as [r script].
  destruct (nth 0 (cell_capacity h CKB_SOURCE_GROUP_INPUT) _) as [r1 c1].
  destruct (nth 0 (cell_capacity h CKB_SOURCE_GROUP_OUTPUT) _) as [r2 c2].
  destruct (signing_message h) as [e|[l m]]; [reflexivity|].
  now rewrite Hrec.
Qed.


End Reads.

(** ** The masked witness *)

(** X13: masking keeps the witness apart from its lock field.  After the
    copy of the 65 signature bytes (line 186) and their zeroing in place
    (line 209), the buffer has the length of the witness and zeros in the
    field, and putting the copied bytes back gives the witness again. *)
Theorem masked_witness_restores (w : bytes) (off : nat) :
  (off + 65 <= length w)%nat ->
  length (memset w off x00 SIGNATURE_SIZE) = length w /\
  memcpy (memset w off x00 SIGNATURE_SIZE) off SIGNATURE_SIZE
  = repeat x00 65 /\
  replace_lock (memset w off x00 SIGNATURE_SIZE) off
    (memcpy w off SIGNATURE_SIZE) = w.
Proof.
  intros Hin.
  assert (Hoff : length (firstn off w) = off)
    by (rewrite length_firstn; lia).
  assert (Hlock : length (firstn 65 (skipn off w)) = 65%nat)
    by (rewrite length_firstn, length_skipn; lia).
  rewrite memset_inside
    by (unfold SIGNATURE_SIZE; simpl Z.to_nat; lia).
  unfold memcpy, replace_lock. change (Z.to_nat SIGNATURE_SIZE) with 65%nat.
  split; [|split].
  - rewrite !length_app, Hoff, repeat_length, length_skipn. lia.
  - rewrite skipn_app, Hoff, Nat.sub_diag, (skipn_all2 (firstn off w))
      by lia.
    cbn [skipn app]. rewrite firstn_app, repeat_length, Nat.sub_diag.
    rewrite firstn_O, app_nil_r. apply firstn_all2.
    rewrite repeat_length. lia.
  - rewrite Hlock, firstn_app, Hoff, Nat.sub_diag, firstn_O, app_nil_r.
    rewrite firstn_firstn, Nat.min_id.
    rewrite skipn_app, Hoff, (skipn_all2 (firstn off w)) by lia.
    replace (off + 65 - off)%nat with 65%nat by lia.
    rewrite skipn_app, repeat_length, Nat.sub_diag.
    rewrite (skipn_all2 (repeat x00 65)) by (rewrite repeat_length; lia).
    cbn [skipn app].
    rewrite <- (firstn_skipn off w) at 4. f_equal.
    rewrite <- (firstn_skipn 65 (skipn off w)) at 2. f_equal.
    now rewrite skipn_skipn, (Nat.add_comm 65).
Qed.

Section WitnessLoopEnd.
Context `{Externals}.

(** X14: when the host has no answer left but successes within the cap,
    a witness loop feeds all of them and ends at the end of the list; from
    an index at or past the end it feeds nothing and leaves the hash state
    as it was. *)
Theorem hash_witnesses_to_end (h : Host) (src : source) (i : nat)
  (ctx : blake2b_state) :
  Forall loads_within_cap (skipn i (witnesses h src)) ->
  hash_witnesses h src i ctx
  = inr (ctx ++ witness_entries (skipn i (witnesses h src))) /\
  ((length (witnesses h src) <= i)%nat ->
   hash_witnesses h src i ctx = inr ctx).
Proof.
  intros Hall. rewrite hash_witnesses_answers. split.
  - rewrite <- (app_nil_r (skipn i (witnesses h src))) at 1.
    now rewrite hash_answers_app.
  - intros Hend. now rewrite skipn_all2.
Qed.

End WitnessLoopEnd.

(** ** The properties on the sample transactions *)

(** Cells with at most one byte of data are counted, how many there may
    be; an answer with an error status is counted as a cell. *)
Example get_cell_num_counts_error_status :
  get_cell_num
    {| script_of := script_of Sample.transfer;
       cell_data := fun _ =>
         [(CKB_SUCCESS, [x01]); (2, []); (CKB_SUCCESS, []);
          (CKB_INDEX_OUT_OF_BOUND, []); (CKB_SUCCESS, [])];
       cell_capacity := cell_capacity Sample.transfer;
       witnesses := witnesses Sample.transfer;
       tx_hash_of := tx_hash_of Sample.transfer;
       inputs_len := 1;
       secp256k1_initialize := 0 |} CKB_SOURCE_GROUP_INPUT = Some 3.
Proof. reflexivity. Qed.

Lemma match_validators_short_hash_witness :
  match_validators (Sample.H1 ++ Sample.H2) (Sample.H2 ++ [x00])
  = match_validators (Sample.H1 ++ Sample.H2) (Sample.H2 ++ [x01; x02]).
Proof. apply match_validators_short_hash. reflexivity. Defined.

Lemma match_validators_app_witness :
  match_validators (Sample.H1 ++ Sample.H2) Sample.H2 = CKB_SUCCESS <->
  match_validators Sample.H1 Sample.H2 = CKB_SUCCESS \/
  match_validators Sample.H2 Sample.H2 = CKB_SUCCESS.
Proof. apply (match_validators_app Sample.H1 Sample.H2 Sample.H2 1). reflexivity. Defined.

Lemma match_validators_partial_chunk_witness :
  match_validators (Sample.H2 ++ [x00; x01]) Sample.H2
  = match_validators Sample.H2 Sample.H2.
Proof.
  apply (match_validators_partial_chunk Sample.H2 [x00; x01] Sample.H2 1);
    [reflexivity | vm_compute; lia].
Defined.

Lemma hash_witnesses_first_stop_witness :
  let h := Sample.transfer_third_witness 2 [] in
  (2 = CKB_INDEX_OUT_OF_BOUND ->
   hash_witnesses h CKB_SOURCE_GROUP_INPUT 1 []
   = inr ([] ++ witness_entries [(CKB_SUCCESS, [x0a; x0b])])) /\
  (2 <> CKB_INDEX_OUT_OF_BOUND -> 2 <> CKB_SUCCESS ->
   hash_witnesses h CKB_SOURCE_GROUP_INPUT 1 [] = inl ERROR_SYSCALL) /\
  (2 = CKB_SUCCESS -> Z.of_nat (@length byte []) > MAX_WITNESS_SIZE ->
   hash_witnesses h CKB_SOURCE_GROUP_INPUT 1 [] = inl ERROR_WITNESS_SIZE).
Proof.
  apply (hash_witnesses_first_stop (Sample.transfer_third_witness 2 [])
           CKB_SOURCE_GROUP_INPUT 1 [] [(CKB_SUCCESS, [x0a; x0b])]
           [(CKB_SUCCESS, [x0d])] 2 []).
  - reflexivity.
  - repeat constructor. vm_compute. discriminate.
Defined.

Lemma hash_witnesses_unambiguous_witness :
  map snd
    (until_out_of_bound
       (skipn 1 (witnesses Sample.transfer_more CKB_SOURCE_GROUP_INPUT)))
  = map snd
      (until_out_of_bound
         (skipn 1
            (witnesses
               (Sample.transfer_third_witness CKB_INDEX_OUT_OF_BOUND [])
               CKB_SOURCE_GROUP_INPUT))).
Proof.
  apply (hash_witnesses_unambiguous Sample.transfer_more
           (Sample.transfer_third_witness CKB_INDEX_OUT_OF_BOUND [])
           CKB_SOURCE_GROUP_INPUT CKB_SOURCE_GROUP_INPUT 1 1 []
           (witness_entry [x0a; x0b])); reflexivity.
Defined.

Lemma signing_message_built_only_if_witness :
  let h := Sample.transfer_more in
  let w0 := snd (ckb_load_witness h 0 CKB_SOURCE_GROUP_INPUT) in
  let lock_bytes_seg := snd (extract_witness_lock w0) in
  loads_within_cap (ckb_load_witness h 0 CKB_SOURCE_GROUP_INPUT) /\
  fst (extract_witness_lock w0) = 0 /\
  size lock_bytes_seg = SIGNATURE_SIZE /\
  Sample.signed = firstn 65 (skipn (ptr lock_bytes_seg) w0) /\
  fst (ckb_load_tx_hash h) = CKB_SUCCESS /\
  length (snd (ckb_load_tx_hash h)) = 32%nat /\
  Forall loads_within_cap
    (until_out_of_bound (skipn 1 (witnesses h CKB_SOURCE_GROUP_INPUT))) /\
  Forall loads_within_cap
    (until_out_of_bound
       (skipn (calculate_inputs_len h) (witnesses h CKB_SOURCE_INPUT))).
Proof.
  eapply (signing_message_built_only_if Sample.transfer_more Sample.signed).
  vm_compute. reflexivity.
Defined.

Lemma main_ignores_unguarded_witnesses_witness :
  main (Sample.transfer_two_inputs [x02; x03])
  = main (Sample.transfer_two_inputs [x01]).
Proof.
  apply main_ignores_unguarded_witnesses. repeat split.
Defined.


Lemma masked_witness_restores_witness :
  let w := Sample.witness_with Sample.signed in
  length (memset w 20 x00 SIGNATURE_SIZE) = length w /\
  memcpy (memset w 20 x00 SIGNATURE_SIZE) 20 SIGNATURE_SIZE
  = repeat x00 65 /\
  replace_lock (memset w 20 x00 SIGNATURE_SIZE) 20
    (memcpy w 20 SIGNATURE_SIZE) = w.
Proof.
  apply (masked_witness_restores (Sample.witness_with Sample.signed) 20).
  vm_compute. lia.
Defined.

Lemma hash_witnesses_to_end_witness :
  let h := Sample.transfer_two_inputs [x01] in
  hash_witnesses h CKB_SOURCE_INPUT 2 []
  = inr ([] ++ witness_entries (skipn 2 (witnesses h CKB_SOURCE_INPUT))) /\
  ((length (witnesses h CKB_SOURCE_INPUT) <= 2)%nat ->
   hash_witnesses h CKB_SOURCE_INPUT 2 [] = inr []).
Proof.
  apply (hash_witnesses_to_end (Sample.transfer_two_inputs [x01])
           CKB_SOURCE_INPUT 2 []).
  repeat constructor. vm_compute. discriminate.
Defined.

Lemma get_cell_num_before_out_of_bound_witness :
  let h := Sample.tx 3 1 1000 1000 Sample.H2 Sample.signed in
  get_cell_num h CKB_SOURCE_GROUP_INPUT
  = (if stores_past_buffer (cell_data h CKB_SOURCE_GROUP_INPUT) 1 then None
     else Some (Z.of_nat
                  (length (statuses_before_out_of_bound
                             (map fst
                                (cell_data h CKB_SOURCE_GROUP_INPUT)))))) /\
  (Forall (fun a => (length (snd a) <= 1)%nat)
     (cell_data h CKB_SOURCE_GROUP_INPUT) ->
   get_cell_num h CKB_SOURCE_GROUP_INPUT <> None) /\
  (forall n, get_cell_num h CKB_SOURCE_GROUP_INPUT = Some n ->
             0 <= n <= Z.of_nat
                         (length (cell_data h CKB_SOURCE_GROUP_INPUT))).
Proof.
  apply (get_cell_num_before_out_of_bound
           (Sample.tx 3 1 1000 1000 Sample.H2 Sample.signed)
           CKB_SOURCE_GROUP_INPUT).
Defined.
